(** * NHL Fantasy Rankings Consolidator: a shallow embedding of
    [ranking_consolidator.py] and the properties of its parsers, its
    position-rank calculator and its consensus aggregator. *)

From Stdlib Require Import ZArith QArith Qround Qabs Qpower Lqa List String Ascii Lia Sorted.
From stdpp Require Import base option list sorting strings gmap.

Open Scope string_scope.
Open Scope list_scope.
Open Scope Z_scope.

(** ** Python strings

    A Python [str] is modelled by [string]; the text of the ranking files is
    taken to be ASCII, so that the character classes of [str.strip],
    [str.split], [str.isdigit] and of the [re] module ([\s], [\d], [\w],
    [[A-Z]]) are decided on the character code. *)

Module PyStr.

Definition code (c : ascii) : N := N_of_ascii c.

(** [str.isspace] on one character: TAB, LF, VT, FF, CR, the four
    separators FS GS RS US, and the blank. The same class is [\s]. *)
Definition is_space (c : ascii) : bool :=
  let n := code c in
  ((9 <=? n) && (n <=? 13) || (28 <=? n) && (n <=? 32))%N.

(** [\d] and [str.isdigit] on ASCII. *)
Definition is_digit (c : ascii) : bool :=
  let n := code c in ((48 <=? n) && (n <=? 57))%N.

(** [[A-Z]]. *)
Definition is_upper (c : ascii) : bool :=
  let n := code c in ((65 <=? n) && (n <=? 90))%N.

Definition is_lower (c : ascii) : bool :=
  let n := code c in ((97 <=? n) && (n <=? 122))%N.

(** [\w] on ASCII: letters, digits and the underscore. *)
Definition is_word (c : ascii) : bool :=
  is_upper c || is_lower c || is_digit c || (code c =? 95)%N.

Definition chars (s : string) : list ascii := list_ascii_of_string s.
Definition str (l : list ascii) : string := string_of_list_ascii l.

(** Longest prefix whose characters satisfy [p], and what follows it. *)
Fixpoint span (p : ascii -> bool) (l : list ascii) : list ascii * list ascii :=
  match l with
  | [] => ([], [])
  | c :: l' =>
      if p c then let '(a, b) := span p l' in (c :: a, b) else ([], l)
  end.

Fixpoint lstrip (l : list ascii) : list ascii :=
  match l with
  | [] => []
  | c :: l' => if is_space c then lstrip l' else l
  end.

Definition rstrip (l : list ascii) : list ascii := rev (lstrip (rev l)).

(** [s.strip()] *)
Definition strip (s : string) : string := str (rstrip (lstrip (chars s))).

(** [s.split()] with no argument: the maximal runs of non-blank
    characters, none of them empty. [cur] is the run being read, reversed. *)
Fixpoint split_ws_go (cur : list ascii) (l : list ascii) : list string :=
  match l with
  | [] => match cur with [] => [] | _ => [str (rev cur)] end
  | c :: l' =>
      if is_space c
      then match cur with
           | [] => split_ws_go [] l'
           | _ => str (rev cur) :: split_ws_go [] l'
           end
      else split_ws_go (c :: cur) l'
  end.

Definition split_ws (s : string) : list string := split_ws_go [] (chars s).

(** [s.split(sep)] for a one-character separator: every field is kept,
    the empty ones too, and the result is never empty. *)
Fixpoint split_on_go (sep : ascii) (cur : list ascii) (l : list ascii) : list string :=
  match l with
  | [] => [str (rev cur)]
  | c :: l' =>
      if Ascii.eqb c sep
      then str (rev cur) :: split_on_go sep [] l'
      else split_on_go sep (c :: cur) l'
  end.

Definition split_on (sep : ascii) (s : string) : list string :=
  split_on_go sep [] (chars s).

(** [sep.join(parts)] *)
Fixpoint join (sep : string) (parts : list string) : string :=
  match parts with
  | [] => ""
  | [p] => p
  | p :: ps => p +:+ sep +:+ join sep ps
  end.

(** [s.startswith(p)] *)
Fixpoint starts_with (p l : list ascii) : bool :=
  match p, l with
  | [], _ => true
  | _ :: _, [] => false
  | a :: p', b :: l' => Ascii.eqb a b && starts_with p' l'
  end.

Definition startswith (s p : string) : bool := starts_with (chars p) (chars s).

(** [p in s] *)
Fixpoint contains_chars (p l : list ascii) : bool :=
  starts_with p l ||
  match l with
  | [] => false
  | _ :: l' => contains_chars p l'
  end.

Definition contains (p s : string) : bool := contains_chars (chars p) (chars s).

(** [s.replace(old, new)] for a non-empty [old]: the occurrences are
    replaced from left to right and do not overlap. The scan restarts
    after each replaced occurrence, [fuel] bounds the number of steps. *)
Fixpoint replace_go (fuel : nat) (old new l : list ascii) : list ascii :=
  match fuel with
  | O => l
  | S fuel' =>
      match l with
      | [] => []
      | c :: l' =>
          if starts_with old l
          then new ++ replace_go fuel' old new (drop (length old) l)
          else c :: replace_go fuel' old new l'
      end
  end.

Definition replace (old new s : string) : string :=
  let l := chars s in str (replace_go (S (length l)) (chars old) (chars new) l).

(** [s.isdigit()] *)
Definition isdigit (s : string) : bool :=
  match chars s with
  | [] => false
  | l => forallb is_digit l
  end.

Definition digit_val (c : ascii) : Z := Z.of_N (code c) - 48.

(** Value of a run of decimal digits read from the left. *)
Definition digits_val (l : list ascii) : Z :=
  fold_left (fun acc c => 10 * acc + digit_val c) l 0.

(** Digits of an integer literal: groups of digits separated by single
    underscores. [prev] tells whether the previous character was a digit. *)
Fixpoint int_body (prev : bool) (acc : list ascii) (l : list ascii) : option (list ascii) :=
  match l with
  | [] => if prev then Some (rev acc) else None
  | c :: l' =>
      if is_digit c then int_body true (c :: acc) l'
      else if (code c =? 95)%N && prev then int_body false acc l'
      else None
  end.

(** The blanks [int] skips around a literal of an ASCII string: TAB, LF,
    VT, FF, CR and the blank, not the four separators. *)
Definition is_int_space (c : ascii) : bool :=
  let n := code c in ((9 <=? n) && (n <=? 13) || (n =? 32))%N.

(** [sys.get_int_max_str_digits()] as the interpreter starts: a literal of
    more digits is refused. *)
Definition int_max_str_digits : nat := 4300.

(** [int(s)] in base ten: blanks around, an optional sign, then the
    digits, no more of them than the limit, leading zeros counted. [None]
    stands for [ValueError]. *)
Definition int (s : string) : option Z :=
  let l := rev (span is_int_space (rev (span is_int_space (chars s)).2)).2 in
  let '(neg, body) :=
    match l with
    | c :: l' =>
        if (code c =? 45)%N then (true, l')
        else if (code c =? 43)%N then (false, l')
        else (false, l)
    | [] => (false, [])
    end in
  match int_body false [] body with
  | Some ds =>
      if (int_max_str_digits <? length ds)%nat then None
      else Some (if neg then - digits_val ds else digits_val ds)
  | None => None
  end.

(** [os.path.basename(p)]: what follows the last slash. *)
Definition basename (p : string) : string :=
  match rev (split_on "/"%char p) with
  | last :: _ => last
  | [] => p
  end.

(** [s.lower()] on ASCII: the capitals are moved to the small letters. *)
Definition lower_char (c : ascii) : ascii :=
  if is_upper c then ascii_of_N (code c + 32) else c.

Definition lower (s : string) : string := str (map lower_char (chars s)).

(** [s.endswith(p)] *)
Definition endswith (s p : string) : bool :=
  starts_with (rev (chars p)) (rev (chars s)).

End PyStr.

(** ** Team-Code Normalizer *)

(** The literal of [self.team_abbreviations], in the order of the source.
    A key written twice ('LAK') keeps the value written last. *)
Definition team_table : list (string * string) :=
  [ ("ANA", "ANA"); ("BOS", "BOS"); ("BUF", "BUF"); ("CAR", "CAR"); ("CBJ", "CBJ");
    ("CGY", "CGY"); ("CHI", "CHI"); ("COL", "COL"); ("DAL", "DAL"); ("DET", "DET");
    ("EDM", "EDM"); ("FLA", "FLA"); ("LAK", "LAK"); ("MIN", "MIN"); ("MTL", "MTL");
    ("NJ", "NJ"); ("NSH", "NSH"); ("NYI", "NYI"); ("NYR", "NYR"); ("OTT", "OTT");
    ("PHI", "PHI"); ("PIT", "PIT"); ("SEA", "SEA"); ("SJ", "SJ"); ("STL", "STL");
    ("TB", "TB"); ("TOR", "TOR"); ("UTA", "UTA"); ("VAN", "VAN"); ("VGK", "VGK");
    ("WPG", "WPG"); ("WSH", "WSH");
    ("TBL", "TB"); ("SJS", "SJ"); ("LAK", "LAK"); ("LAS", "VGK"); ("Wpg", "WPG");
    ("Tor", "TOR"); ("Edm", "EDM"); ("Col", "COL"); ("Bos", "BOS"); ("Ott", "OTT");
    ("Nsh", "NSH"); ("Dal", "DAL") ].

Definition team_abbreviations : gmap string string :=
  fold_left (fun m kv => <[kv.1 := kv.2]> m) team_table ∅.

(** [self.team_abbreviations.get(tok, tok)] *)
Definition normalize_team (tok : string) : string :=
  default tok (team_abbreviations !! tok).

(** [normalize_name] *)
Definition normalize_name (name : string) : string :=
  let name := PyStr.join " " (PyStr.split_ws (PyStr.strip name)) in
  PyStr.replace "Sr." "Sr" (PyStr.replace "Jr." "Jr" name).

(** ** Data model *)

(** The dictionaries built by the parsers (RawRankingRecord). *)
Module Raw.
Record t := mk {
  name : string;
  team : string;
  position : string;
  overall_rank : Z;
  position_rank : Z;
  multi_position : bool
}.

(** [player['position_rank'] = i] *)
Definition set_position_rank (i : Z) (p : t) : t :=
  mk (name p) (team p) (position p) (overall_rank p) i (multi_position p).
End Raw.

(** Exceptions a parser can raise. *)
Inductive py_error := KeyError | ValueError.

Definition result (A : Type) : Type := py_error + A.

Definition raise {A} (e : py_error) : result A := inl e.
Definition ret {A} (a : A) : result A := inr a.
Definition bind {A B} (m : result A) (k : A -> result B) : result B :=
  match m with
  | inl e => inl e
  | inr a => k a
  end.

Notation "x <- m ;; k" := (bind m (fun x => k))
  (at level 100, m at next level, right associativity).

Definition str_eqb (a b : string) : bool := String.eqb a b.

(** Truth value of a string: the empty string is false. *)
Definition truthy_str (s : string) : bool := negb (str_eqb s "").

(** Truth value of an integer: zero is false. *)
Definition truthy_int (z : Z) : bool := negb (z =? 0).

(** ** Source parsers *)

(** A row as [csv.DictReader] yields it: the header's column names mapped to
    the fields of the row. [row[k]] raises [KeyError] for a column the
    header does not have. A row shorter than the header, whose missing
    fields the reader sets to [None], is not in the model. *)
Definition csv_row : Type := gmap string string.

Definition row_get (row : csv_row) (k : string) : result string :=
  match row !! k with
  | Some v => ret v
  | None => raise KeyError
  end.

Definition py_int (s : string) : result Z :=
  match PyStr.int s with
  | Some z => ret z
  | None => raise ValueError
  end.

(** Position read from the name of a FantasyPros file. *)
Definition position_of_filename (filepath : string) : string :=
  let filename := PyStr.basename filepath in
  if PyStr.contains "_C_" filename then "C"
  else if PyStr.contains "_LW_" filename then "LW"
  else if PyStr.contains "_RW_" filename then "RW"
  else if PyStr.contains "_D_" filename then "D"
  else if PyStr.contains "_G_" filename then "G"
  else "F".

(** Body of the loop of [parse_fantasyprops_csv] for one row. *)
Definition fantasyprops_row (filepath : string) (row : csv_row) : result Raw.t :=
  raw_name <- row_get row "PLAYER NAME" ;;
  let name := normalize_name raw_name in
  raw_team <- row_get row "TEAM" ;;
  let team := normalize_team raw_team in
  let position := position_of_filename filepath in
  rk <- row_get row "RK" ;;
  overall_rank <- py_int rk ;;
  rk' <- row_get row "RK" ;;
  position_rank <- py_int rk' ;;
  ret (Raw.mk name team position overall_rank position_rank (str_eqb position "F")).

(** The loop of [parse_fantasyprops_csv]: [players] is the list built so
    far; an exception raised in a row leaves the loop and the function. *)
Fixpoint fantasyprops_loop (filepath : string) (rows : list csv_row)
    (players : list Raw.t) : result (list Raw.t) :=
  match rows with
  | [] => ret players
  | row :: rows' =>
      p <- fantasyprops_row filepath row ;;
      fantasyprops_loop filepath rows' (players ++ [p])
  end.

Definition parse_fantasyprops_csv (filepath : string) (rows : list csv_row)
  : result (list Raw.t) :=
  fantasyprops_loop filepath rows [].

(** One line of [parse_hh_text]: the record it appends, if any. The guard
    [len(parts) >= 4 and parts[0].isdigit()] and the [try] around the
    conversions both end in [continue]. *)
Definition hh_line (raw_line : string) : option Raw.t :=
  let line := PyStr.strip raw_line in
  if negb (truthy_str line) then None
  else
    match PyStr.split_on "009"%char line with
    | p0 :: p1 :: p2 :: p3 :: _ =>
        if PyStr.isdigit p0 then
          match PyStr.int p0 with
          | Some overall_rank =>
              let name := normalize_name p1 in
              let position := p2 in
              let team := normalize_team p3 in
              Some (Raw.mk name team position overall_rank overall_rank
                      (str_eqb position "F"))
          | None => None
          end
        else None
    | _ => None
    end.

Fixpoint hh_loop (lines : list string) (players : list Raw.t) : list Raw.t :=
  match lines with
  | [] => players
  | line :: lines' =>
      match hh_line line with
      | Some p => hh_loop lines' (players ++ [p])
      | None => hh_loop lines' players
      end
  end.

Definition parse_hh_text (lines : list string) : list Raw.t := hh_loop lines [].

(** The three noise patterns of [parse_yahoo_text], on a stripped line:
    [^\d+$], [^\d+%$] and [^\d+\.\d+$]. *)
Definition re_integer (l : list ascii) : bool :=
  match PyStr.span PyStr.is_digit l with
  | (_ :: _, []) => true
  | _ => false
  end.

Definition re_percent (l : list ascii) : bool :=
  match PyStr.span PyStr.is_digit l with
  | (_ :: _, [c]) => (PyStr.code c =? 37)%N
  | _ => false
  end.

Definition re_decimal (l : list ascii) : bool :=
  match PyStr.span PyStr.is_digit l with
  | (_ :: _, c :: rest) =>
      (PyStr.code c =? 46)%N &&
      match PyStr.span PyStr.is_digit rest with
      | (_ :: _, []) => true
      | _ => false
      end
  | _ => false
  end.

(** [re.match(r'([A-Z]{2,3})\s*-\s*([A-Z]+)', s)]: the two groups. With four
    capitals or more at the start no hyphen can follow the first group,
    whether it takes three capitals or, on backtracking, two. *)
Definition re_team_pos (l : list ascii) : option (string * string) :=
  let '(up, rest) := PyStr.span PyStr.is_upper l in
  if (2 <=? length up)%nat && (length up <=? 3)%nat then
    match PyStr.lstrip rest with
    | c :: rest' =>
        if (PyStr.code c =? 45)%N then
          match PyStr.span PyStr.is_upper (PyStr.lstrip rest') with
          | (p :: ps, _) => Some (PyStr.str up, PyStr.str (p :: ps))
          | _ => None
          end
        else None
    | [] => None
    end
  else None.

(** The inner [for j] loop: the first line of the window that carries a
    team and a position. *)
Fixpoint yahoo_lookahead (window : list string) : option (string * string) :=
  match window with
  | [] => None
  | next :: window' =>
      match re_team_pos (PyStr.chars (PyStr.strip next)) with
      | Some (t, p) => Some (normalize_team t, p)
      | None => yahoo_lookahead window'
      end
  end.

(** Does the stripped line look like a player name? *)
Definition yahoo_candidate (line : string) : bool :=
  truthy_str line && negb (PyStr.startswith line "Photo")
  && negb (PyStr.startswith line "Player")
  && negb (re_integer (PyStr.chars line))
  && negb (re_percent (PyStr.chars line))
  && negb (re_decimal (PyStr.chars line)).

Definition yahoo_multi (position : string) : bool :=
  bool_decide (position ∈ ["C"; "LW"; "RW"]).

(** The [while] loop of [parse_yahoo_text] at index [i]: [lines] is
    [lines[i:]], so that [lines[i+1 : min(i+5, len(lines))]] is the first
    four lines of its tail. The state is the counter and the list built. *)
Fixpoint yahoo_loop (lines : list string) (overall_rank : Z) (players : list Raw.t)
  : list Raw.t :=
  match lines with
  | [] => players
  | raw_line :: rest =>
      let line := PyStr.strip raw_line in
      if yahoo_candidate line then
        let name := normalize_name line in
        match yahoo_lookahead (take 4 rest) with
        | Some (team, position) =>
            if truthy_str team && truthy_str position then
              let position_rank := overall_rank in
              yahoo_loop rest (overall_rank + 1)
                (players ++ [Raw.mk name team position overall_rank position_rank
                               (yahoo_multi position)])
            else yahoo_loop rest overall_rank players
        | None => yahoo_loop rest overall_rank players
        end
      else yahoo_loop rest overall_rank players
  end.

Definition parse_yahoo_text (lines : list string) : list Raw.t := yahoo_loop lines 1 [].

Definition tab : string := String "009"%char "".
Definition nl : string := String "010"%char "".

(** The common head of the two enumerated-line patterns,
    [(\d+)\.\s+([^,]+),]: the rank, the name and what follows the comma.
    The name ends at the first comma after the period. What stands between
    the period and that comma is a run of blanks and then the name; when it
    is made of blanks only, the last of them is given back by [\s+] and is
    the name. The groups of digits are given as the numbers they write, as
    [int(match.group(...))] turns them in the two parsers; a group of more
    than [PyStr.int_max_str_digits] digits, which [int] refuses there with
    a [ValueError] that no handler takes, is not in the model. *)
Definition re_rank_name (l : list ascii) : option (Z * string * list ascii) :=
  match PyStr.span PyStr.is_digit l with
  | (d :: ds, c :: rest) =>
      if (PyStr.code c =? 46)%N then
        let '(s, after) := PyStr.span (fun c => negb (PyStr.code c =? 44)%N) rest in
        match after with
        | _ :: after' =>
            let '(ws, name) := PyStr.span PyStr.is_space s in
            match ws, name with
            | [], _ => None
            | _ :: _, _ :: _ => Some (PyStr.digits_val (d :: ds), PyStr.str name, after')
            | [_], [] => None
            | _ :: _ :: _, [] =>
                Some (PyStr.digits_val (d :: ds), PyStr.str (drop (length ws - 1) ws), after')
            end
        | [] => None
        end
      else None
  | _ => None
  end.

(** [re.match(r'(\d+)\.\s+([^,]+),\s+(\w+)\s+\(([A-Z]+)(\d+)\)', line)]:
    the five groups. *)
Definition re_espn (l : list ascii) : option (Z * string * string * string * Z) :=
  match re_rank_name l with
  | Some (rank, name, after) =>
      match PyStr.span PyStr.is_space after with
      | (_ :: _, after1) =>
          match PyStr.span PyStr.is_word after1 with
          | (t :: ts, after2) =>
              match PyStr.span PyStr.is_space after2 with
              | (_ :: _, c :: after3) =>
                  if (PyStr.code c =? 40)%N then
                    match PyStr.span PyStr.is_upper after3 with
                    | (p :: ps, after4) =>
                        match PyStr.span PyStr.is_digit after4 with
                        | (n :: ns, c' :: _) =>
                            if (PyStr.code c' =? 41)%N then
                              Some (rank, name, PyStr.str (t :: ts), PyStr.str (p :: ps),
                                    PyStr.digits_val (n :: ns))
                            else None
                        | _ => None
                        end
                    | _ => None
                    end
                  else None
              | _ => None
              end
          | _ => None
          end
      | _ => None
      end
  | None => None
  end.

(** One line of [parse_espn_text]. *)
Definition espn_line (raw_line : string) : option Raw.t :=
  let line := PyStr.strip raw_line in
  if negb (truthy_str line) then None
  else
    match re_espn (PyStr.chars line) with
    | Some (overall_rank, g2, g3, position, position_rank) =>
        let name := normalize_name g2 in
        let team := normalize_team g3 in
        Some (Raw.mk name team position overall_rank position_rank
                (str_eqb position "F"))
    | None => None
    end.

Fixpoint espn_loop (lines : list string) (players : list Raw.t) : list Raw.t :=
  match lines with
  | [] => players
  | line :: lines' =>
      match espn_line line with
      | Some p => espn_loop lines' (players ++ [p])
      | None => espn_loop lines' players
      end
  end.

Definition parse_espn_text (lines : list string) : list Raw.t := espn_loop lines [].

(** [re.match(r'(\d+)\.\s+([^,]+),\s+([A-Z]+),\s+(\w+)', line)]:
    the four groups. *)
Definition re_nhl (l : list ascii) : option (Z * string * string * string) :=
  match re_rank_name l with
  | Some (rank, name, after) =>
      match PyStr.span PyStr.is_space after with
      | (_ :: _, after1) =>
          match PyStr.span PyStr.is_upper after1 with
          | (p :: ps, c :: after2) =>
              if (PyStr.code c =? 44)%N then
                match PyStr.span PyStr.is_space after2 with
                | (_ :: _, after3) =>
                    match PyStr.span PyStr.is_word after3 with
                    | (t :: ts, _) =>
                        Some (rank, name, PyStr.str (p :: ps), PyStr.str (t :: ts))
                    | _ => None
                    end
                | _ => None
                end
              else None
          | _ => None
          end
      | _ => None
      end
  | None => None
  end.

(** One line of [parse_nhl_text]. *)
Definition nhl_line (raw_line : string) : option Raw.t :=
  let line := PyStr.strip raw_line in
  if negb (truthy_str line) then None
  else
    match re_nhl (PyStr.chars line) with
    | Some (overall_rank, g2, position, g4) =>
        let name := normalize_name g2 in
        let team := normalize_team g4 in
        Some (Raw.mk name team position overall_rank overall_rank
                (str_eqb position "F"))
    | None => None
    end.

Fixpoint nhl_loop (lines : list string) (players : list Raw.t) : list Raw.t :=
  match lines with
  | [] => players
  | line :: lines' =>
      match nhl_line line with
      | Some p => nhl_loop lines' (players ++ [p])
      | None => nhl_loop lines' players
      end
  end.

Definition parse_nhl_text (lines : list string) : list Raw.t := nhl_loop lines [].

(** The five sources, and the flag each parser gives a record of a given
    position. *)
Inductive source := FantasyPros | ESPN | Yahoo | NHL | HockeyHandbook.

Definition multi_position_of (s : source) (position : string) : bool :=
  match s with
  | Yahoo => yahoo_multi position
  | _ => str_eqb position "F"
  end.

(** ** Python containers *)

(** [list.sort(key=...)]: a stable sort that compares keys with [<] only.
    An element moves in front of an earlier one only when its key is
    strictly smaller. *)
Section Sort.
Context {A K : Type} (ltb : K -> K -> bool) (key : A -> K).

Fixpoint sort_insert (x : A) (l : list A) : list A :=
  match l with
  | [] => [x]
  | y :: l' => if ltb (key y) (key x) then y :: sort_insert x l' else x :: l
  end.

Definition py_sort (l : list A) : list A := fold_right sort_insert [] l.
End Sort.

(** [defaultdict(list)]: the keys in insertion order, each with the list of
    the values appended under it. *)
Section DefaultDict.
Context {V : Type}.

(** [d[k].append(v)] *)
Fixpoint dd_append (k : string) (v : V) (d : list (string * list V))
  : list (string * list V) :=
  match d with
  | [] => [(k, [v])]
  | (k', vs) :: d' =>
      if str_eqb k k' then (k', vs ++ [v]) :: d' else (k', vs) :: dd_append k v d'
  end.

(** The list stored under [k], empty when [k] was never used. *)
Fixpoint dd_get (k : string) (d : list (string * list V)) : list V :=
  match d with
  | [] => []
  | (k', vs) :: d' => if str_eqb k k' then vs else dd_get k d'
  end.
End DefaultDict.

(** The objects of a list are shared with the buckets built from it: the
    list is the store, a reference is an index into it, and a bucket is a
    list of references. *)
Section Buckets.
Context {A K : Type} `{Inhabited A}.
Context (bucket_key : A -> string) (ltb : K -> K -> bool) (sort_key : A -> K).
Context (set_rank : Z -> A -> A).

(** [for x in l: by_position[x[...]].append(x)], from index [i] on. *)
Fixpoint fill_buckets (i : nat) (l : list A) (d : list (string * list nat))
  : list (string * list nat) :=
  match l with
  | [] => d
  | x :: l' => fill_buckets (S i) l' (dd_append (bucket_key x) i d)
  end.

(** [for i, x in enumerate(refs, i): x[...] = i] *)
Fixpoint assign_ranks (i : Z) (refs : list nat) (store : list A) : list A :=
  match refs with
  | [] => store
  | r :: refs' => assign_ranks (i + 1) refs' (alter (set_rank i) r store)
  end.

(** [for _, refs in by_position.items(): refs.sort(key=...); ...] *)
Fixpoint rank_buckets (d : list (string * list nat)) (store : list A) : list A :=
  match d with
  | [] => store
  | (_, refs) :: d' =>
      let sorted := py_sort ltb (fun r => sort_key (store !!! r)) refs in
      rank_buckets d' (assign_ranks 1 sorted store)
  end.

Definition rank_within_buckets (store : list A) : list A :=
  rank_buckets (fill_buckets 0 store []) store.

(** The partition of key [p]: the references, in encounter order and
    counted from [i], of the objects of [l] whose bucket key is [p]. *)
Fixpoint partition_refs (p : string) (i : nat) (l : list A) : list nat :=
  match l with
  | [] => []
  | x :: l' =>
      if str_eqb p (bucket_key x) then i :: partition_refs p (S i) l'
      else partition_refs p (S i) l'
  end.

(** The partition of key [p], sorted. *)
Definition sorted_partition (store : list A) (p : string) : list nat :=
  py_sort ltb (fun r => sort_key (store !!! r)) (partition_refs p 0 store).
End Buckets.

#[global] Instance raw_inhabited : Inhabited Raw.t :=
  populate (Raw.mk "" "" "" 0 0 false).

(** ** Position-Rank Calculator *)

Definition calculate_position_ranks (players : list Raw.t) : list Raw.t :=
  rank_within_buckets Raw.position Z.ltb Raw.overall_rank Raw.set_position_rank players.

(** ** Consensus Aggregator *)

(** The dictionaries of the output (ConsensusRecord). The two consensus
    ranks are keys added after the dictionary is built: [None] is a key
    that is not there yet. *)
Module Consensus.
Record t := mk {
  name : string;
  team : string;
  position : string;
  multi_position_eligible : bool;
  overall_rank : Q;
  position_rank : Q;
  consensus_overall_rank : option Z;
  consensus_position_rank : option Z
}.

(** [player['consensus_overall_rank'] = i] *)
Definition set_consensus_overall_rank (i : Z) (p : t) : t :=
  mk (name p) (team p) (position p) (multi_position_eligible p)
     (overall_rank p) (position_rank p) (Some i) (consensus_position_rank p).

(** [player['consensus_position_rank'] = i] *)
Definition set_consensus_position_rank (i : Z) (p : t) : t :=
  mk (name p) (team p) (position p) (multi_position_eligible p)
     (overall_rank p) (position_rank p) (consensus_overall_rank p) (Some i).
End Consensus.

#[global] Instance consensus_inhabited : Inhabited Consensus.t :=
  populate (Consensus.mk "" "" "" false 0%Q 0%Q None None).

(** Numbers. The averages are Python floats, and 999 is an [int] that
    [round] gives back as it is. The records of the aggregator carry them
    as exact rationals: [/] is the exact quotient, and [round(x, 1)] the
    nearest multiple of one tenth, a tie going to the even tenth. This is
    what the order of the records and the tallies are stated on. The binary
    representation is modelled apart, in [PyFloat] and [float_rank] below,
    and the statements on the value of a consensus rank are made there. *)

(** The integer nearest to [q], a tie going to the even one. *)
Definition round_half_even (q : Q) : Z :=
  let n := Qnum q in
  let d := Z.pos (Qden q) in
  let f := n / d in
  match 2 * (n mod d) ?= d with
  | Lt => f
  | Gt => f + 1
  | Eq => if Z.even f then f else f + 1
  end.

(** [round(x, 1)] *)
Definition py_round1 (x : Q) : Q := Qred (round_half_even (x * 10) # 10).

(** [x < y] on the averages *)
Definition Qltb (x y : Q) : bool := negb (Qle_bool y x).

(** [sum(l)] *)
Definition py_sum (l : list Z) : Z := fold_left Z.add l 0.

(** [l.count(x)] *)
Definition py_count (x : string) (l : list string) : nat :=
  length (List.filter (str_eqb x) l).

(** [max(it, key=...)]: the first item of the iteration whose key is not
    exceeded later; [ValueError] on an empty iteration. *)
Definition py_max {A} (key : A -> nat) (it : list A) : result A :=
  match it with
  | [] => raise ValueError
  | x :: xs =>
      ret (fold_left (fun best y => if (key best <? key y)%nat then y else best) xs x)
  end.

Section Aggregator.

(** The order in which the interpreter iterates over a set of strings. It
    depends on the hash of the strings, which the interpreter salts anew
    in each process: [set_iter] is the order proposed for the distinct
    elements of a list in the process at hand. *)
Variable set_iter : list string -> list string.

(** [set(l)] as it is iterated: the distinct elements of [l], each once,
    in the order [set_iter] gives them; a proposed order that is not an
    enumeration of the distinct elements is not an iteration order, the
    elements are then taken as [remove_dups] lists them. *)
Definition py_set (l : list string) : list string :=
  let d := remove_dups l in
  let s := set_iter d in
  if decide (s ≡ₚ d) then s else d.

(** [max(set(votes), key=votes.count) if votes else dflt] *)
Definition most_common (votes : list string) (dflt : string) : result string :=
  match votes with
  | [] => ret dflt
  | _ => py_max (fun v => py_count v votes) (py_set votes)
  end.

(** [sum(ranks) / len(ranks) if ranks else 999] *)
Definition average (ranks : list Z) : Q :=
  match ranks with
  | [] => 999%Q
  | _ => (inject_Z (py_sum ranks) / inject_Z (Z.of_nat (length ranks)))%Q
  end.

(** Body of the loop over [player_groups.items()], for a non-empty group. *)
Definition build_consensus (name : string) (players : list Raw.t) : result Consensus.t :=
  let teams := List.filter truthy_str (map Raw.team players) in
  let positions := List.filter truthy_str (map Raw.position players) in
  most_common_team <- most_common teams "UNK" ;;
  most_common_position <- most_common positions "F" ;;
  let overall_ranks := List.filter truthy_int (map Raw.overall_rank players) in
  let position_ranks := List.filter truthy_int (map Raw.position_rank players) in
  let avg_overall := average overall_ranks in
  let avg_position := average position_ranks in
  let multi_position := existsb Raw.multi_position players in
  ret (Consensus.mk name most_common_team most_common_position multi_position
         (py_round1 avg_overall) (py_round1 avg_position) None None).

Fixpoint consensus_loop (groups : list (string * list Raw.t))
    (consensus_players : list Consensus.t) : result (list Consensus.t) :=
  match groups with
  | [] => ret consensus_players
  | (name, players) :: groups' =>
      match players with
      | [] => consensus_loop groups' consensus_players
      | _ =>
          c <- build_consensus name players ;;
          consensus_loop groups' (consensus_players ++ [c])
      end
  end.

(** [for player in all_players: player_groups[player['name']].append(player)] *)
Definition group_by_name (all_players : list Raw.t) : list (string * list Raw.t) :=
  fold_left (fun d p => dd_append (Raw.name p) p d) all_players [].

Definition create_consensus_ranking (all_players : list Raw.t)
  : result (list Consensus.t) :=
  let player_groups := group_by_name all_players in
  consensus_players <- consensus_loop player_groups [] ;;
  let consensus_players :=
    py_sort Qltb Consensus.overall_rank consensus_players in
  let consensus_players :=
    imap (fun i => Consensus.set_consensus_overall_rank (Z.of_nat i + 1))
      consensus_players in
  ret (rank_within_buckets Consensus.position Qltb Consensus.overall_rank
         Consensus.set_consensus_position_rank consensus_players).

(** The two stages [main] runs on the records of all the files. *)
Definition consolidate (all_players : list Raw.t) : result (list Consensus.t) :=
  create_consensus_ranking (calculate_position_ranks all_players).

End Aggregator.

(** Two iteration orders: the one of [remove_dups], and its reverse. *)
Definition iter_fwd (l : list string) : list string := l.
Definition iter_rev (l : list string) : list string := rev l.

(** ** The ranks as floats *)

(** A float is modelled by the rational it holds: a binary64 number is a
    significand of at most 53 bits times a power of two, the exponent of
    the last bit no less than -1074 and the number below [2 ** 1024]. *)
Module PyFloat.

(** [2 ** e] *)
Definition pow2 (e : Z) : Q := (2 ^ e)%Q.

(** The exponent of the leading bit of a positive rational [q]: the [e]
    with [2 ** e <= q < 2 ** (e + 1)]. *)
Definition floor_log2 (q : Q) : Z :=
  let e0 := Z.log2 (Qnum q) - Z.log2 (Z.pos (Qden q)) in
  if Qle_bool (pow2 e0) q then e0 else e0 - 1.

(** The exponent of the last bit of the significand: 52 below the leading
    bit, and never below the one of the subnormal numbers. *)
Definition ulp_exp (q : Q) : Z := Z.max (floor_log2 q - 52) (-1074).

(** Round to nearest, ties to the even significand, for a positive [q]. *)
Definition nearest_pos (q : Q) : Q :=
  let e := ulp_exp q in
  Qred (inject_Z (round_half_even (q * pow2 (- e))) * pow2 e).

Definition nearest (q : Q) : Q :=
  match Qnum q with
  | Z0 => 0%Q
  | Z.pos _ => nearest_pos q
  | Z.neg _ => Qred (- nearest_pos (- q))
  end.

(** [a / b] on two [int]s, [b] positive: the float nearest to the
    quotient; [None] stands for [OverflowError], raised when that float
    would be out of range. *)
Definition true_div (a : Z) (b : positive) : option Q :=
  let x := nearest (a # b) in
  if Qle_bool (pow2 1024) (Qabs x) then None else Some x.

(** [round(x, 1)] on a float: the float nearest to the decimal number
    that [x], taken exactly, rounds to. *)
Definition round1 (x : Q) : Q := nearest (py_round1 x).

End PyFloat.

(** [sum(ranks) / len(ranks) if ranks else 999] with the arithmetic of
    floats. *)
Definition float_average (ranks : list Z) : option Q :=
  match ranks with
  | [] => Some 999%Q
  | _ => PyFloat.true_div (py_sum ranks) (Pos.of_nat (length ranks))
  end.

(** The consensus rank of a group whose members carry [values] under one
    of the two keys, [overall_rank] or [position_rank]:
    [ranks = [p[key] for p in players if p[key]]], then
    [avg = sum(ranks) / len(ranks) if ranks else 999], then
    [round(avg, 1)]. *)
Definition float_rank (values : list Z) : option Q :=
  match float_average (List.filter truthy_int values) with
  | Some avg => Some (PyFloat.round1 avg)
  | None => None
  end.

(** ** Pipeline Driver *)

(** A file of the datasets directory: its path, the lines [f.readlines()]
    gives and the rows [csv.DictReader(f)] gives. *)
Record ranking_file := {
  file_path : string;
  file_lines : list string;
  file_rows : list csv_row
}.

(** [parse_file]: the parser is chosen on the path; a file of no known
    format gives no record (the notice it prints is left out). *)
Definition parse_file (f : ranking_file) : result (list Raw.t) :=
  let filepath := file_path f in
  let filename := PyStr.lower (PyStr.basename filepath) in
  if PyStr.endswith filepath ".csv" then parse_fantasyprops_csv filepath (file_rows f)
  else if PyStr.contains "espn" filename then ret (parse_espn_text (file_lines f))
  else if PyStr.contains "yahoo" filename then ret (parse_yahoo_text (file_lines f))
  else if PyStr.contains "nhl" filename then ret (parse_nhl_text (file_lines f))
  else if PyStr.contains "hh" filename then ret (parse_hh_text (file_lines f))
  else ret [].

(** The first loop of [main]: [all_players.extend(players)] file after file,
    in the order [os.listdir] gives them. *)
Fixpoint parse_all (files : list ranking_file) (all_players : list Raw.t)
  : result (list Raw.t) :=
  match files with
  | [] => ret all_players
  | f :: files' =>
      players <- parse_file f ;;
      parse_all files' (all_players ++ players)
  end.

(** The document [main] writes. *)
Module Output.
Record t := mk {
  generated_date : string;
  total_players : Z;
  players : list Consensus.t
}.
End Output.

(** [main], from the files to the document; the printing is left out. *)
Definition main set_iter (files : list ranking_file) : result Output.t :=
  all_players <- parse_all files [] ;;
  let all_players := calculate_position_ranks all_players in
  consensus_players <- create_consensus_ranking set_iter all_players ;;
  ret (Output.mk "2025-09-27" (Z.of_nat (length consensus_players)) consensus_players).

(** ** The position rank as the specification words it *)

(** Reference [j] comes before reference [k] when the partition is sorted
    by overall rank ascending, the encounter order breaking ties. *)
Definition ranked_before (players : list Raw.t) (j k : nat) : Prop :=
  let rj := Raw.overall_rank (players !!! j) in
  let rk := Raw.overall_rank (players !!! k) in
  rj < rk ∨ (rj = rk ∧ (j < k)%nat).

(** [part] is the position partition of [pos], sorted: it lists once each
    the references of the records whose position is [pos], in the order of
    [ranked_before]. *)
Definition is_sorted_partition (players : list Raw.t) (pos : string)
    (part : list nat) : Prop :=
  NoDup part ∧
  (∀ k, k ∈ part ↔ ∃ p, players !! k = Some p ∧ Raw.position p = pos) ∧
  StronglySorted (ranked_before players) part.

(** A pool of five records from two sources, used to try the statements. *)
Definition sample_pool : list Raw.t :=
  [Raw.mk "Leon Draisaitl" "EDM" "C" 3 3 false; Raw.mk "Cale Makar" "COL" "D" 2 2 false;
   Raw.mk "Connor McDavid" "EDM" "C" 1 1 false; Raw.mk "Auston Matthews" "TOR" "C" 3 9 false;
   Raw.mk "Quinn Hughes" "VAN" "D" 2 7 false].

(** ** The consensus rank as the specification words it *)

(** The arithmetic mean of a list of ranks. *)
Definition mean (l : list Z) : Q :=
  (inject_Z (foldr Z.add 0%Z l) / inject_Z (Z.of_nat (length l)))%Q.

(** [r] is [x] rounded to one decimal place: a whole number of tenths, and
    none is nearer to [x]. *)
Definition rounded_to_tenth (x r : Q) : Prop :=
  (∃ t : Z, r == inject_Z t / 10)%Q ∧ (Qabs (r - x) <= 1 # 20)%Q.

(** The consensus rank [r] of a group whose members carry [ranks]: the mean
    of the ranks that are there (zero is no rank), rounded to one decimal
    place, and 999 when none is there. *)
Definition consensus_rank_of (ranks : list Z) (r : Q) : Prop :=
  match filter (fun z => z ≠ 0) ranks with
  | [] => r = 999%Q
  | valid => rounded_to_tenth (mean valid) r
  end.

(** The same with the arithmetic of floats: [r] is the float nearest to
    the mean rounded to one decimal place. *)
Definition float_rank_of (values : list Z) (r : option Q) : Prop :=
  match filter (fun z => z ≠ 0) values with
  | [] => r = Some 999%Q
  | valid => ∃ t, rounded_to_tenth (mean valid) t ∧ r = Some (PyFloat.nearest t)
  end.


(** ** Tied votes *)

(** No tie in a vote: at most one value reaches the greatest count. *)
Definition untied (votes : list string) : bool :=
  let top := foldr Nat.max 0%nat (map (fun v => py_count v votes) votes) in
  (length (remove_dups (List.filter (fun v => py_count v votes =? top)%nat votes)) <=? 1)%nat.

(** No group of the pool has a tie for its team or for its position. *)
Definition no_tied_vote (pool : list Raw.t) : bool :=
  forallb (fun g : string * list Raw.t =>
             untied (List.filter truthy_str (map Raw.team g.2)) &&
             untied (List.filter truthy_str (map Raw.position g.2)))
    (group_by_name pool).

(** Two sources that disagree on the team of a player. *)
Definition traded_pool : list Raw.t :=
  [Raw.mk "Mikko Rantanen" "COL" "RW" 5 5 false;
   Raw.mk "Mikko Rantanen" "DAL" "RW" 7 7 false].

(** Three sources on a player who changed team and wing, two on another:
    the votes of the first group are split two to one, for the team and for
    the position, and the sets of both have two elements. *)
Definition majority_pool : list Raw.t :=
  [Raw.mk "Mikko Rantanen" "COL" "RW" 5 5 false;
   Raw.mk "Cale Makar" "COL" "D" 2 2 false;
   Raw.mk "Mikko Rantanen" "DAL" "LW" 7 7 false;
   Raw.mk "Mikko Rantanen" "DAL" "RW" 9 9 false;
   Raw.mk "Cale Makar" "COL" "D" 3 3 false].

(** Three files that rank the same player: a forward in the Yahoo list, a
    centre in the ESPN and NHL.com lists. *)
Definition crosby_yahoo : list string := ["Sidney Crosby" +:+ nl; "PIT - F" +:+ nl].
Definition crosby_espn : list string := ["5. Sidney Crosby, PIT (C3)" +:+ nl].


(** The flag of a record is the one the parser of source [s] gives. *)
Definition flagged_by (s : source) (r : Raw.t) : Prop :=
  Raw.multi_position r = multi_position_of s (Raw.position r).


(** ** The positional-block parser as the specification words it *)

(** [line], followed by [rest], is emitted: it is a candidate name line and
    one of the four lines after it, at most, carries a team and a position. *)
Definition yahoo_emits (line : string) (rest : list string) : bool :=
  yahoo_candidate (PyStr.strip line) &&
  bool_decide (is_Some (yahoo_lookahead (take 4 rest))).

(** The number of lines of the file that are emitted. *)
Fixpoint yahoo_hits (lines : list string) : nat :=
  match lines with
  | [] => 0
  | line :: rest => ((if yahoo_emits line rest then 1 else 0) + yahoo_hits rest)%nat
  end.

(** ** A FantasyPros file with a row whose rank is not a number *)

Definition csv_row_of (rk player team : string) : csv_row :=
  <["RK" := rk]> (<["PLAYER NAME" := player]> (<["TEAM" := team]> ∅)).

Definition csv_good_rows : list csv_row :=
  [csv_row_of "1" "Nathan MacKinnon" "COL"; csv_row_of "3" "Sidney Crosby" "PIT"].

Definition csv_noisy_rows : list csv_row :=
  [csv_row_of "1" "Nathan MacKinnon" "COL"; csv_row_of "n/a" "Connor McDavid" "EDM";
   csv_row_of "3" "Sidney Crosby" "PIT"].

(** The same three rows as lines of a Hockey Handbook file. *)
Definition hh_good_lines : list string :=
  ["1" +:+ tab +:+ "Nathan MacKinnon" +:+ tab +:+ "C" +:+ tab +:+ "COL" +:+ nl;
   "3" +:+ tab +:+ "Sidney Crosby" +:+ tab +:+ "C" +:+ tab +:+ "PIT" +:+ nl].

Definition hh_noisy_lines : list string :=
  ["1" +:+ tab +:+ "Nathan MacKinnon" +:+ tab +:+ "C" +:+ tab +:+ "COL" +:+ nl;
   "n/a" +:+ tab +:+ "Connor McDavid" +:+ tab +:+ "C" +:+ tab +:+ "EDM" +:+ nl;
   "3" +:+ tab +:+ "Sidney Crosby" +:+ tab +:+ "C" +:+ tab +:+ "PIT" +:+ nl].

(** ** A datasets directory *)

(** Four files: a Yahoo list, an ESPN list, a FantasyPros table and a file
    of no known format. *)
Definition sample_files : list ranking_file :=
  [ {| file_path := "datasets/yahoo_rankings.txt"; file_lines := crosby_yahoo;
       file_rows := [] |};
    {| file_path := "datasets/ESPN_top300.txt"; file_lines := crosby_espn;
       file_rows := [] |};
    {| file_path := "datasets/FantasyPros_C_2025.csv"; file_lines := [];
       file_rows := csv_good_rows |};
    {| file_path := "datasets/README.md"; file_lines := ["notes" +:+ nl];
       file_rows := [] |} ].

(** The same directory, the table having a row whose rank is not a number. *)
Definition noisy_files : list ranking_file :=
  [ {| file_path := "datasets/yahoo_rankings.txt"; file_lines := crosby_yahoo;
       file_rows := [] |};
    {| file_path := "datasets/FantasyPros_C_2025.csv"; file_lines := [];
       file_rows := csv_noisy_rows |};
    {| file_path := "datasets/ESPN_top300.txt"; file_lines := crosby_espn;
       file_rows := [] |} ].

(** ** Relations used to state what the sort and the buckets do *)

(** [R] agrees with the comparison the sort makes between [x] and an
    element [y] that follows it in the input. *)
Definition sort_agrees {A K} (ltb : K -> K -> bool) (key : A -> K)
    (R : A -> A -> Prop) (x y : A) : Prop :=
  if ltb (key y) (key x) then R y x else R x y.

(** Two stores with the same sort keys at every reference. *)
Definition keys_agree {A K} (sort_key : A -> K) (store0 store : list A) : Prop :=
  ∀ k a, store0 !! k = Some a →
         ∃ a', store !! k = Some a' ∧ sort_key a' = sort_key a.

(** * Properties *)

(** ** The definitions on small inputs *)

Example normalize_name_ex :
  normalize_name "  Martin   St. Louis Jr. " = "Martin St. Louis Jr".
Proof. vm_compute. reflexivity. Qed.

Example normalize_team_ex : normalize_team "LAS" = "VGK" /\ normalize_team "XYZ" = "XYZ".
Proof. vm_compute. split; reflexivity. Qed.

Example int_ex :
  PyStr.int " 12 " = Some 12 /\ PyStr.int "-1_0" = Some (-10) /\
  PyStr.int "abc" = None /\ PyStr.int "" = None /\ PyStr.int "1__0" = None.
Proof. vm_compute. repeat split; reflexivity. Qed.

(** [int] skips the six blanks of C, not the separators that [str.strip]
    takes off, and refuses a literal of more digits than the limit, zeros
    included. *)
Example int_blanks_and_limit :
  PyStr.int (String "028"%char "7") = None ∧
  PyStr.int (" 7" +:+ String "011"%char "") = Some 7 ∧
  PyStr.strip (String "028"%char "7") = "7" ∧
  PyStr.int (PyStr.str (repeat "0"%char 4300)) = Some 0 ∧
  PyStr.int (PyStr.str (repeat "0"%char 4301)) = None ∧
  PyStr.int (PyStr.str ("-"%char :: repeat "0"%char 4300)) = Some 0.
Proof. vm_compute. repeat split; reflexivity. Qed.

(** A line of the delimited list whose first field has more digits than
    [int] takes is dropped by the [try] of the parser. *)
Example parse_hh_long_rank :
  parse_hh_text
    [PyStr.str (repeat "1"%char 4301) +:+ tab +:+ "Connor McDavid" +:+ tab +:+ "C"
       +:+ tab +:+ "EDM" +:+ nl;
     "2" +:+ tab +:+ "Cale Makar" +:+ tab +:+ "D" +:+ tab +:+ "COL" +:+ nl]
  = [Raw.mk "Cale Makar" "COL" "D" 2 2 false].
Proof. vm_compute. reflexivity. Qed.

Example parse_yahoo_ex :
  parse_yahoo_text
    ["Photo of x" +:+ nl; "Connor McDavid" +:+ nl; "7" +:+ nl; "EDM - C" +:+ nl; "98%" +:+ nl;
     "Nobody" +:+ nl; "1.5" +:+ nl; "Cale Makar" +:+ nl; "COL -D" +:+ nl]
  = [Raw.mk "Connor McDavid" "EDM" "C" 1 1 true;
     Raw.mk "Nobody" "COL" "D" 2 2 false;
     Raw.mk "Cale Makar" "COL" "D" 3 3 false].
Proof. vm_compute. reflexivity. Qed.

Example parse_hh_ex :
  parse_hh_text
    ["1" +:+ tab +:+ "Connor McDavid" +:+ tab +:+ "C" +:+ tab +:+ "Edm" +:+ tab +:+ "100" +:+ nl;
     "not a valid ranking row" +:+ nl; nl;
     "2" +:+ tab +:+ "Cale Makar" +:+ tab +:+ "D" +:+ tab +:+ "COL" +:+ nl]
  = [Raw.mk "Connor McDavid" "EDM" "C" 1 1 false; Raw.mk "Cale Makar" "COL" "D" 2 2 false].
Proof. vm_compute. reflexivity. Qed.

Example parse_espn_ex :
  parse_espn_text ["1. Nathan MacKinnon, Col (C1)" +:+ nl; "not a valid ranking row" +:+ nl;
                   "3. Connor McDavid, Edm (C2)" +:+ nl; "4. ,X (C2)"; "5.  , Tor (F3)"]
  = [Raw.mk "Nathan MacKinnon" "COL" "C" 1 1 false; Raw.mk "Connor McDavid" "EDM" "C" 3 2 false;
     Raw.mk "" "TOR" "F" 5 3 true].
Proof. vm_compute. reflexivity. Qed.

Example parse_nhl_ex :
  parse_nhl_text ["1. Nathan MacKinnon, F, COL" +:+ nl; "" +:+ nl; "2. Cale Makar, D, COL (x)";
                  "3. Nobody, d, COL"]
  = [Raw.mk "Nathan MacKinnon" "COL" "F" 1 1 true; Raw.mk "Cale Makar" "COL" "D" 2 2 false].
Proof. vm_compute. reflexivity. Qed.

Example calculate_position_ranks_ex :
  calculate_position_ranks
    [Raw.mk "a" "EDM" "C" 3 3 false; Raw.mk "b" "COL" "D" 2 2 false;
     Raw.mk "c" "COL" "C" 1 1 false; Raw.mk "d" "TOR" "C" 3 9 false;
     Raw.mk "e" "TOR" "D" 2 7 false]
  = [Raw.mk "a" "EDM" "C" 3 2 false; Raw.mk "b" "COL" "D" 2 1 false;
     Raw.mk "c" "COL" "C" 1 1 false; Raw.mk "d" "TOR" "C" 3 3 false;
     Raw.mk "e" "TOR" "D" 2 2 false].
Proof. vm_compute. reflexivity. Qed.

Example consolidate_ex :
  consolidate iter_fwd
    [Raw.mk "Sidney Crosby" "PIT" "C" 5 5 false; Raw.mk "Cale Makar" "COL" "D" 2 2 false;
     Raw.mk "Sidney Crosby" "PIT" "C" 7 7 false; Raw.mk "Connor McDavid" "EDM" "C" 1 1 false]
  = inr [Consensus.mk "Connor McDavid" "EDM" "C" false 1 1 (Some 1) (Some 1);
         Consensus.mk "Cale Makar" "COL" "D" false 2 1 (Some 2) (Some 1);
         Consensus.mk "Sidney Crosby" "PIT" "C" false 6 (5 # 2) (Some 3) (Some 2)].
Proof. vm_compute. reflexivity. Qed.

Example parse_fantasyprops_ex :
  parse_fantasyprops_csv "datasets/rankings_C_weekly.csv"
    [csv_row_of "1" "Nathan MacKinnon" "COL"]
  = inr [Raw.mk "Nathan MacKinnon" "COL" "C" 1 1 false].
Proof. vm_compute. reflexivity. Qed.

(** ** The sort *)

Section SortFacts.
Context {A K : Type} (ltb : K -> K -> bool) (key : A -> K).

Lemma sort_insert_perm (x : A) (l : list A) : sort_insert ltb key x l ≡ₚ x :: l.
Proof.
  induction l as [|y l IH]; simpl; [done|].
  destruct (ltb (key y) (key x)); [|done].
  rewrite IH. apply Permutation_swap.
Qed.

Lemma py_sort_perm (l : list A) : py_sort ltb key l ≡ₚ l.
Proof.
  induction l as [|x l IH]; simpl; [done|].
  rewrite sort_insert_perm. by rewrite IH.
Qed.

Lemma py_sort_length (l : list A) : length (py_sort ltb key l) = length l.
Proof. by rewrite py_sort_perm. Qed.

Lemma py_sort_elem_of (x : A) (l : list A) : x ∈ py_sort ltb key l ↔ x ∈ l.
Proof. by rewrite py_sort_perm. Qed.

Lemma py_sort_NoDup (l : list A) : NoDup l → NoDup (py_sort ltb key l).
Proof. by rewrite py_sort_perm. Qed.

(** The sorted list is ordered by any transitive relation [R] that
    agrees with the comparisons the sort makes between an element and
    those that follow it in the input. *)
Section Sorted.
Context (R : A -> A -> Prop) `{!Transitive R}.

Lemma sort_insert_sorted (x : A) (l : list A) :
  StronglySorted R l → Forall (sort_agrees ltb key R x) l →
  StronglySorted R (sort_insert ltb key x l).
Proof.
  induction l as [|y l IH]; intros Hs Hx; simpl.
  - repeat constructor.
  - apply StronglySorted_inv in Hs as [Hs Hy].
    apply Forall_cons in Hx as [Hxy Hx].
    unfold sort_agrees in Hxy.
    destruct (ltb (key y) (key x)) eqn:E.
    + constructor; [by apply IH|].
      rewrite sort_insert_perm. constructor; [done|done].
    + constructor; [by constructor|].
      constructor; [done|].
      eapply Forall_impl; [exact Hy|]. intros z Hz. by trans y.
Qed.

Lemma py_sort_sorted (l : list A) :
  StronglySorted (sort_agrees ltb key R) l → StronglySorted R (py_sort ltb key l).
Proof.
  induction l as [|x l IH]; intros Hs; simpl; [constructor|].
  apply StronglySorted_inv in Hs as [Hs Hx].
  apply sort_insert_sorted; [by apply IH|].
  by rewrite py_sort_perm.
Qed.
End Sorted.
End SortFacts.

Lemma sort_insert_ext {A K} (ltb : K -> K -> bool) (f g : A -> K) (x : A) (l : list A) :
  f x = g x → (∀ y, y ∈ l → f y = g y) →
  sort_insert ltb f x l = sort_insert ltb g x l.
Proof.
  intros Hx. induction l as [|y l IH]; intros Hl; simpl; [done|].
  rewrite Hx, (Hl y) by apply list_elem_of_here.
  rewrite IH; [done|]. intros z Hz. apply Hl. by apply list_elem_of_further.
Qed.

Lemma py_sort_ext {A K} (ltb : K -> K -> bool) (f g : A -> K) (l : list A) :
  (∀ y, y ∈ l → f y = g y) → py_sort ltb f l = py_sort ltb g l.
Proof.
  induction l as [|x l IH]; intros Hl; simpl; [done|].
  rewrite IH by (intros z Hz; apply Hl; by apply list_elem_of_further).
  apply sort_insert_ext; [apply Hl; apply list_elem_of_here|].
  intros y Hy. apply Hl. apply list_elem_of_further.
  by rewrite py_sort_elem_of in Hy.
Qed.

(** ** The dictionary of lists *)

Lemma str_eqb_eq (a b : string) : str_eqb a b = true ↔ a = b.
Proof. apply String.eqb_eq. Qed.

Lemma str_eqb_refl (a : string) : str_eqb a a = true.
Proof. by apply str_eqb_eq. Qed.

Lemma str_eqb_neq (a b : string) : str_eqb a b = false ↔ a ≠ b.
Proof. apply String.eqb_neq. Qed.

Lemma str_eqb_decide (a b : string) : str_eqb a b = bool_decide (a = b).
Proof.
  destruct (str_eqb a b) eqn:E.
  - apply str_eqb_eq in E. by rewrite bool_decide_eq_true_2.
  - apply str_eqb_neq in E. by rewrite bool_decide_eq_false_2.
Qed.

Section DefaultDictFacts.
Context {V : Type}.
Implicit Types d : list (string * list V).

Lemma dd_get_append k k' (v : V) d :
  dd_get k (dd_append k' v d) =
  if str_eqb k k' then dd_get k d ++ [v] else dd_get k d.
Proof.
  induction d as [|[k0 vs] d IH]; simpl.
  - by destruct (str_eqb k k').
  - destruct (str_eqb k' k0) eqn:E1; simpl.
    + apply str_eqb_eq in E1 as ->.
      by destruct (str_eqb k k0).
    + destruct (str_eqb k k0) eqn:E2; [|done].
      apply str_eqb_eq in E2 as ->.
      apply str_eqb_neq in E1.
      destruct (str_eqb k0 k') eqn:E3; [|done].
      by apply str_eqb_eq in E3.
Qed.

Lemma dd_append_keys k (v : V) d :
  (dd_append k v d).*1 = if bool_decide (k ∈ d.*1) then d.*1 else d.*1 ++ [k].
Proof.
  induction d as [|[k0 vs] d IH]; csimpl; [done|].
  destruct (str_eqb k k0) eqn:E; csimpl.
  - apply str_eqb_eq in E as ->.
    rewrite bool_decide_eq_true_2; [done|apply list_elem_of_here].
  - apply str_eqb_neq in E. rewrite IH.
    destruct (bool_decide (k ∈ d.*1)) eqn:E2.
    + apply bool_decide_eq_true in E2.
      rewrite bool_decide_eq_true_2; [done|by apply list_elem_of_further].
    + apply bool_decide_eq_false in E2.
      rewrite bool_decide_eq_false_2; [done|].
      by intros [?|?]%elem_of_cons.
Qed.

Lemma dd_append_keys_NoDup k (v : V) d : NoDup d.*1 → NoDup (dd_append k v d).*1.
Proof.
  intros Hd. rewrite dd_append_keys. case_bool_decide; [done|].
  apply NoDup_app. split_and!; [done| |apply NoDup_singleton].
  intros x Hx ->%list_elem_of_singleton. done.
Qed.

Lemma dd_append_keys_elem k k' (v : V) d :
  k ∈ (dd_append k' v d).*1 ↔ k = k' ∨ k ∈ d.*1.
Proof.
  rewrite dd_append_keys. case_bool_decide.
  - split; [by right|]. by intros [->|?].
  - rewrite elem_of_app, list_elem_of_singleton. tauto.
Qed.

Lemma dd_get_elem k vs d : NoDup d.*1 → (k, vs) ∈ d → dd_get k d = vs.
Proof.
  induction d as [|[k0 vs0] d IH]; simpl; intros Hd Hin.
  - by apply elem_of_nil in Hin.
  - apply NoDup_cons in Hd as [Hk0 Hd].
    apply elem_of_cons in Hin as [[= -> ->]|Hin].
    + by rewrite str_eqb_refl.
    + destruct (str_eqb k k0) eqn:E; [|by apply IH].
      apply str_eqb_eq in E as ->. exfalso. apply Hk0.
      apply list_elem_of_fmap. by exists (k0, vs).
Qed.

Lemma dd_elem_nonempty k (v : V) d :
  (∀ k0 vs, (k0, vs) ∈ d → vs ≠ []) →
  ∀ k0 vs, (k0, vs) ∈ dd_append k v d → vs ≠ [].
Proof.
  induction d as [|[k1 vs1] d IH]; simpl; intros Hd k0 vs Hin.
  - apply list_elem_of_singleton in Hin as [= -> ->]. done.
  - destruct (str_eqb k k1).
    + apply elem_of_cons in Hin as [[= -> ->]|Hin].
      * by destruct vs1.
      * apply (Hd k0). by apply list_elem_of_further.
    + apply elem_of_cons in Hin as [[= -> ->]|Hin].
      * apply (Hd k1). apply list_elem_of_here.
      * eapply IH; [|done]. intros ?? ?. eapply Hd. by apply list_elem_of_further.
Qed.
End DefaultDictFacts.

(** ** Buckets of references *)

Section BucketFacts.
Context {A K : Type} `{Inhabited A}.
Context (bucket_key : A -> string) (ltb : K -> K -> bool) (sort_key : A -> K).
Context (set_rank : Z -> A -> A).
Hypothesis set_rank_sort_key : ∀ i a, sort_key (set_rank i a) = sort_key a.

Lemma partition_refs_elem p i (l : list A) k :
  k ∈ partition_refs bucket_key p i l ↔
  (i ≤ k)%nat ∧ ∃ a, l !! (k - i)%nat = Some a ∧ bucket_key a = p.
Proof.
  revert i. induction l as [|x l IH]; intros i; simpl.
  - rewrite elem_of_nil. split; [done|]. by intros (_ & a & ? & _).
  - assert (Hl : k ∈ partition_refs bucket_key p (S i) l ↔
              (S i ≤ k)%nat ∧ ∃ a, l !! (k - S i)%nat = Some a ∧ bucket_key a = p)
      by apply IH.
    destruct (str_eqb p (bucket_key x)) eqn:E.
    + apply str_eqb_eq in E. rewrite elem_of_cons, Hl. split.
      * intros [->|(Hle & a & Ha & Hp)].
        -- split; [lia|]. exists x. by rewrite Nat.sub_diag.
        -- split; [lia|]. exists a. split; [|done].
           by replace (k - i)%nat with (S (k - S i)) by lia.
      * intros (Hle & a & Ha & Hp).
        destruct (decide (k = i)) as [->|Hne]; [by left|right].
        split; [lia|]. exists a. split; [|done].
        by replace (k - i)%nat with (S (k - S i)) in Ha by lia.
    + apply str_eqb_neq in E. rewrite Hl. split.
      * intros (Hle & a & Ha & Hp). split; [lia|]. exists a. split; [|done].
        by replace (k - i)%nat with (S (k - S i)) by lia.
      * intros (Hle & a & Ha & Hp).
        destruct (decide (k = i)) as [->|Hne].
        { rewrite Nat.sub_diag in Ha. simpl in Ha. congruence. }
        split; [lia|]. exists a. split; [|done].
        by replace (k - i)%nat with (S (k - S i)) in Ha by lia.
Qed.

Lemma partition_refs_sorted p i (l : list A) :
  StronglySorted lt (partition_refs bucket_key p i l).
Proof.
  revert i. induction l as [|x l IH]; intros i; simpl; [constructor|].
  destruct (str_eqb p (bucket_key x)); [|apply IH].
  constructor; [apply IH|].
  apply Forall_forall. intros k Hk.
  apply partition_refs_elem in Hk. lia.
Qed.

Lemma partition_refs_NoDup p i (l : list A) : NoDup (partition_refs bucket_key p i l).
Proof.
  revert i. induction l as [|x l IH]; intros i; simpl; [constructor|].
  destruct (str_eqb p (bucket_key x)); [|apply IH].
  apply NoDup_cons. split; [|apply IH].
  intros Hk. apply partition_refs_elem in Hk. lia.
Qed.

Lemma fill_buckets_get p i (l : list A) d :
  dd_get p (fill_buckets bucket_key i l d) = dd_get p d ++ partition_refs bucket_key p i l.
Proof.
  revert i d. induction l as [|x l IH]; intros i d; simpl.
  - by rewrite app_nil_r.
  - rewrite IH, dd_get_append.
    destruct (str_eqb p (bucket_key x)); [|done].
    by rewrite <- app_assoc.
Qed.

Lemma fill_buckets_keys_NoDup i (l : list A) d :
  NoDup d.*1 → NoDup (fill_buckets bucket_key i l d).*1.
Proof.
  revert i d. induction l as [|x l IH]; intros i d Hd; simpl; [done|].
  apply IH. by apply dd_append_keys_NoDup.
Qed.

Lemma fill_buckets_keys i (l : list A) d p :
  p ∈ (fill_buckets bucket_key i l d).*1 ↔ p ∈ d.*1 ∨ ∃ a, a ∈ l ∧ bucket_key a = p.
Proof.
  revert i d. induction l as [|x l IH]; intros i d; simpl.
  - split; [by left|]. intros [?|(a & Ha & _)]; [done|].
    by apply elem_of_nil in Ha.
  - rewrite IH, dd_append_keys_elem. split.
    + intros [[->|?]|(a & Ha & Hp)]; [right|by left|right].
      * exists x. split; [apply list_elem_of_here|done].
      * exists a. split; [by apply list_elem_of_further|done].
    + intros [?|(a & Ha & Hp)]; [left; by right|].
      apply elem_of_cons in Ha as [->|Ha]; [left; by left|].
      right. by exists a.
Qed.

(** Writing the ranks of one bucket. *)
Lemma assign_ranks_length i refs (store : list A) :
  length (assign_ranks set_rank i refs store) = length store.
Proof.
  revert i store. induction refs as [|r refs IH]; intros i store; simpl; [done|].
  by rewrite IH, length_alter.
Qed.

Lemma assign_ranks_other i refs (store : list A) k :
  k ∉ refs → assign_ranks set_rank i refs store !! k = store !! k.
Proof.
  revert i store. induction refs as [|r refs IH]; intros i store Hk; simpl; [done|].
  apply not_elem_of_cons in Hk as [Hne Hk].
  rewrite IH by done. by apply list_lookup_alter_ne.
Qed.

Lemma assign_ranks_at i refs (store : list A) j k :
  NoDup refs → refs !! j = Some k →
  assign_ranks set_rank i refs store !! k = set_rank (i + Z.of_nat j) <$> store !! k.
Proof.
  revert i store j. induction refs as [|r refs IH]; intros i store j Hnd Hj; [done|].
  apply NoDup_cons in Hnd as [Hr Hnd]. simpl.
  destruct j as [|j]; simpl in Hj.
  - injection Hj as ->. rewrite assign_ranks_other by done.
    rewrite list_lookup_alter_eq. by rewrite Z.add_0_r.
  - assert (r ≠ k) by (intros ->; apply Hr; by eapply list_elem_of_lookup_2).
    rewrite (IH _ _ j) by done.
    rewrite list_lookup_alter_ne by done.
    by replace (i + 1 + Z.of_nat j) with (i + Z.of_nat (S j)) by lia.
Qed.

Lemma assign_ranks_keys_agree i refs (store0 store : list A) :
  NoDup refs → keys_agree sort_key store0 store →
  keys_agree sort_key store0 (assign_ranks set_rank i refs store).
Proof.
  intros Hnd Hk k a Ha. destruct (Hk k a Ha) as (a' & Ha' & Hkey).
  destruct (decide (k ∈ refs)) as [Hin|Hin].
  - apply list_elem_of_lookup_1 in Hin as [j Hj].
    rewrite (assign_ranks_at _ _ _ j) by done. rewrite Ha'. simpl.
    eexists. split; [done|]. by rewrite set_rank_sort_key.
  - rewrite assign_ranks_other by done. by exists a'.
Qed.

Lemma keys_agree_sort (store0 store : list A) refs :
  keys_agree sort_key store0 store → (∀ r, r ∈ refs → is_Some (store0 !! r)) →
  py_sort ltb (fun r => sort_key (store !!! r)) refs =
  py_sort ltb (fun r => sort_key (store0 !!! r)) refs.
Proof.
  intros Hk Hrefs. apply py_sort_ext. intros r Hr.
  destruct (Hrefs r Hr) as [a Ha]. destruct (Hk r a Ha) as (a' & Ha' & Hkey).
  by rewrite (list_lookup_total_correct _ _ _ Ha), (list_lookup_total_correct _ _ _ Ha').
Qed.

Lemma rank_buckets_length d (store : list A) :
  length (rank_buckets ltb sort_key set_rank d store) = length store.
Proof.
  revert store. induction d as [|[p refs] d IH]; intros store; simpl; [done|].
  by rewrite IH, assign_ranks_length.
Qed.

Lemma keys_agree_refl (store : list A) : keys_agree sort_key store store.
Proof. intros k a Ha. by exists a. Qed.

(** What the loop over the buckets leaves at reference [k]: the object
    is rewritten once, when its own bucket is reached, with its place in
    the sorted bucket. [store0] is the store the buckets were built from. *)
Lemma rank_buckets_spec (store0 : list A) d (store : list A) :
  NoDup d.*1 →
  (∀ p refs, (p, refs) ∈ d → refs = partition_refs bucket_key p 0 store0) →
  keys_agree sort_key store0 store →
  ∀ k a0 a', store0 !! k = Some a0 → store !! k = Some a' →
    (bucket_key a0 ∈ d.*1 →
       ∃ i, sorted_partition bucket_key ltb sort_key store0 (bucket_key a0) !! i = Some k ∧
            rank_buckets ltb sort_key set_rank d store !! k = Some (set_rank (Z.of_nat i + 1) a')) ∧
    (bucket_key a0 ∉ d.*1 → rank_buckets ltb sort_key set_rank d store !! k = Some a').
Proof.
  revert store. induction d as [|[p refs] d IH]; intros store Hnd Hd Hagree k a0 a' Ha0 Ha'.
  { split; [by intros ?%elem_of_nil|done]. }
  csimpl in Hnd. apply NoDup_cons in Hnd as [Hp Hnd].
  assert (Hrefs : refs = partition_refs bucket_key p 0 store0)
    by (apply Hd; apply list_elem_of_here).
  assert (Hd' : ∀ q rs, (q, rs) ∈ d → rs = partition_refs bucket_key q 0 store0)
    by (intros q rs Hq; apply Hd; by apply list_elem_of_further).
  assert (Hvalid : ∀ r, r ∈ refs → is_Some (store0 !! r)).
  { intros r Hr. rewrite Hrefs in Hr.
    apply partition_refs_elem in Hr as (_ & a & Ha & _).
    rewrite Nat.sub_0_r in Ha. by exists a. }
  cbn [rank_buckets].
  rewrite (keys_agree_sort store0 store refs Hagree Hvalid).
  set (sorted := py_sort ltb (fun r => sort_key (store0 !!! r)) refs).
  assert (Hsorted : sorted = sorted_partition bucket_key ltb sort_key store0 p)
    by (unfold sorted, sorted_partition; by rewrite Hrefs).
  assert (Hsnd : NoDup sorted).
  { apply py_sort_NoDup. rewrite Hrefs. apply partition_refs_NoDup. }
  set (store1 := assign_ranks set_rank 1 sorted store).
  assert (Hagree1 : keys_agree sort_key store0 store1)
    by (by apply assign_ranks_keys_agree).
  destruct (decide (bucket_key a0 = p)) as [Heq|Hne].
  - assert (Hk : k ∈ sorted).
    { apply py_sort_elem_of. rewrite Hrefs. apply partition_refs_elem.
      split; [lia|]. exists a0. by rewrite Nat.sub_0_r. }
    apply list_elem_of_lookup_1 in Hk as [i Hi].
    assert (Hk1 : store1 !! k = Some (set_rank (1 + Z.of_nat i) a')).
    { unfold store1. rewrite (assign_ranks_at _ _ _ i) by done. by rewrite Ha'. }
    destruct (IH store1 Hnd Hd' Hagree1 k a0 _ Ha0 Hk1) as [_ IH2].
    split; [|intros Hnot; exfalso; apply Hnot; rewrite Heq; apply list_elem_of_here].
    intros _. exists i. rewrite Heq, <- Hsorted. split; [done|].
    rewrite IH2 by (by rewrite Heq). f_equal. f_equal. lia.
  - assert (Hk : k ∉ sorted).
    { intros Hk. apply py_sort_elem_of in Hk. rewrite Hrefs in Hk.
      apply partition_refs_elem in Hk as (_ & a & Ha & Hpa).
      rewrite Nat.sub_0_r in Ha. congruence. }
    assert (Hk1 : store1 !! k = Some a').
    { unfold store1. by rewrite assign_ranks_other. }
    destruct (IH store1 Hnd Hd' Hagree1 k a0 a' Ha0 Hk1) as [IH1 IH2].
    split.
    + intros [?|Hin]%elem_of_cons; [done|]. by apply IH1.
    + intros [_ Hnot]%not_elem_of_cons. by apply IH2.
Qed.

Lemma rank_within_buckets_length (store : list A) :
  length (rank_within_buckets bucket_key ltb sort_key set_rank store) = length store.
Proof. apply rank_buckets_length. Qed.

(** Every object of the store is rewritten with its 1-based place in its
    sorted partition, and stays where it is. *)
Lemma rank_within_buckets_lookup (store : list A) k a :
  store !! k = Some a →
  ∃ i, sorted_partition bucket_key ltb sort_key store (bucket_key a) !! i = Some k ∧
       rank_within_buckets bucket_key ltb sort_key set_rank store !! k
       = Some (set_rank (Z.of_nat i + 1) a).
Proof.
  intros Ha. unfold rank_within_buckets.
  assert (Hnd : NoDup (fill_buckets bucket_key 0 store []).*1)
    by (apply fill_buckets_keys_NoDup; constructor).
  destruct (rank_buckets_spec store (fill_buckets bucket_key 0 store []) store) with
    (k := k) (a0 := a) (a' := a) as [Hin _]; try done.
  - intros p refs Hp. apply (dd_get_elem _ _ _ Hnd) in Hp.
    by rewrite fill_buckets_get in Hp.
  - apply keys_agree_refl.
  - apply Hin. apply fill_buckets_keys. right. exists a.
    split; [by eapply list_elem_of_lookup_2|done].
Qed.
End BucketFacts.

(** ** Team-Code Normalizer *)

Lemma fold_insert_lookup_None (l : list (string * string)) (m : gmap string string) k :
  k ∉ l.*1 → m !! k = None →
  fold_left (fun m kv => <[kv.1 := kv.2]> m) l m !! k = None.
Proof.
  revert m. induction l as [|[k0 v0] l IH]; intros m Hk Hm; csimpl in *; [done|].
  apply not_elem_of_cons in Hk as [Hne Hk].
  apply IH; [done|]. by rewrite lookup_insert_ne.
Qed.

(** C8. The normalizer is a total function: a token that is a key of the
    mapping table is sent to the code the table gives it ("TBL" to "TB",
    "Edm" to "EDM"), and a token that is not a key is returned unchanged. *)
Theorem normalize_team_total (tok : string) :
  (∀ c, (tok, c) ∈ team_table → normalize_team tok = c) ∧
  (tok ∉ team_table.*1 → normalize_team tok = tok) ∧
  normalize_team "TBL" = "TB" ∧ normalize_team "Edm" = "EDM".
Proof.
  split_and!.
  - intros c Hc. unfold team_table in Hc.
    repeat (apply elem_of_cons in Hc as [[= -> ->]|Hc]; [vm_compute; reflexivity|]).
    by apply elem_of_nil in Hc.
  - intros Hk. unfold normalize_team, team_abbreviations.
    by rewrite fold_insert_lookup_None.
  - vm_compute. reflexivity.
  - vm_compute. reflexivity.
Qed.

Lemma normalize_team_total_witness :
  (("LAS", "VGK") ∈ team_table ∧ normalize_team "LAS" = "VGK") ∧
  (("QUE" ∉ team_table.*1) ∧ normalize_team "QUE" = "QUE").
Proof.
  split.
  - assert (Hin : ("LAS", "VGK") ∈ team_table) by (apply (bool_decide_unpack _); vm_compute; exact I).
    split; [exact Hin|].
    exact (proj1 (normalize_team_total "LAS") "VGK" Hin).
  - assert (Hout : "QUE" ∉ team_table.*1) by (apply (bool_decide_unpack _); vm_compute; exact I).
    split; [exact Hout|].
    exact (proj1 (proj2 (normalize_team_total "QUE")) Hout).
Defined.

(** ** Position-Rank Calculator *)

Lemma StronglySorted_weaken {A} (R S : A -> A -> Prop) (l : list A) :
  (∀ x y, R x y → S x y) → StronglySorted R l → StronglySorted S l.
Proof.
  intros HRS. induction 1 as [|x l Hs IH Hx]; constructor; [done|].
  eapply Forall_impl; [exact Hx|]. intros y. apply HRS.
Qed.

#[local] Instance ranked_before_trans players : Transitive (ranked_before players).
Proof. intros i j k. unfold ranked_before. simpl. lia. Qed.

Lemma sorted_partition_is_sorted (players : list Raw.t) (pos : string) :
  is_sorted_partition players pos
    (sorted_partition Raw.position Z.ltb Raw.overall_rank players pos).
Proof.
  unfold sorted_partition. split_and!.
  - apply py_sort_NoDup, partition_refs_NoDup.
  - intros k. rewrite py_sort_elem_of, partition_refs_elem.
    rewrite Nat.sub_0_r. split; [by intros [_ ?]|]. intros ?. split; [lia|done].
  - apply (py_sort_sorted _ _ (ranked_before players)).
    eapply StronglySorted_weaken; [|apply partition_refs_sorted].
    intros j k Hjk. unfold sort_agrees, ranked_before. simpl.
    destruct (Z.ltb_spec (Raw.overall_rank (players !!! k))
                (Raw.overall_rank (players !!! j))); lia.
Qed.

(** There is one sorted partition for each position. *)
Lemma is_sorted_partition_unique (players : list Raw.t) (pos : string)
    (part part' : list nat) :
  is_sorted_partition players pos part → is_sorted_partition players pos part' →
  part = part'.
Proof.
  intros (Hnd & Hin & Hs) (Hnd' & Hin' & Hs').
  apply (StronglySorted_unique_strong (ranked_before players)); try done.
  - intros j k _ _. unfold ranked_before. simpl. lia.
  - apply NoDup_Permutation; [done|done|]. intros k. by rewrite Hin, Hin'.
Qed.

(** C4. The calculator returns the same records in the same places, hence
    the same multiset, none dropped or added; the record at any place is
    rewritten in its position rank alone, which becomes its 1-based index
    in its position partition sorted by overall rank ascending with the
    encounter order breaking ties. *)
Theorem calculate_position_ranks_relabels (players : list Raw.t) (k : nat) (p : Raw.t) :
  players !! k = Some p →
  length (calculate_position_ranks players) = length players ∧
  ∃ part i,
    is_sorted_partition players (Raw.position p) part ∧
    part !! i = Some k ∧
    calculate_position_ranks players !! k
    = Some (Raw.mk (Raw.name p) (Raw.team p) (Raw.position p) (Raw.overall_rank p)
              (Z.of_nat i + 1) (Raw.multi_position p)).
Proof.
  intros Hk. split; [apply rank_within_buckets_length|].
  destruct (rank_within_buckets_lookup Raw.position Z.ltb Raw.overall_rank
              Raw.set_position_rank (fun _ _ => eq_refl) players k p Hk)
    as (i & Hi & Hout).
  exists (sorted_partition Raw.position Z.ltb Raw.overall_rank players (Raw.position p)), i.
  split_and!; [apply sorted_partition_is_sorted|done|done].
Qed.

(** The ranks written in one partition are 1, 2, ... up to its size. *)
Section BucketRanks.
Context {A K : Type} `{Inhabited A}.
Context (bucket_key : A -> string) (ltb : K -> K -> bool) (sort_key : A -> K).
Context (set_rank : Z -> A -> A) (get_rank : A -> option Z).
Hypothesis set_rank_sort_key : ∀ i a, sort_key (set_rank i a) = sort_key a.
Hypothesis set_rank_bucket_key : ∀ i a, bucket_key (set_rank i a) = bucket_key a.
Hypothesis get_set_rank : ∀ i a, get_rank (set_rank i a) = Some i.

Lemma partition_refs_total p (pre l : list A) :
  (fun k => (pre ++ l) !!! k) <$> partition_refs bucket_key p (length pre) l
  = filter (fun a => bucket_key a = p) l.
Proof.
  revert pre. induction l as [|x l IH]; intros pre; [done|].
  assert (IH' := IH (pre ++ [x])).
  rewrite <- app_assoc, length_app, Nat.add_1_r in IH'. simpl in IH'.
  simpl. destruct (str_eqb p (bucket_key x)) eqn:E.
  - apply str_eqb_eq in E. rewrite filter_cons_True by done. csimpl.
    rewrite IH'. f_equal. by apply list_lookup_total_middle.
  - apply str_eqb_neq in E. rewrite filter_cons_False by done. exact IH'.
Qed.

Lemma partition_refs_ext p i (l l' : list A) :
  Forall2 (fun a b => bucket_key a = bucket_key b) l l' →
  partition_refs bucket_key p i l = partition_refs bucket_key p i l'.
Proof.
  intros Hl. revert i. induction Hl as [|a b l l' Hab Hl IH]; intros i; simpl; [done|].
  rewrite Hab, !IH. done.
Qed.

Lemma rank_within_buckets_bucket_keys (store : list A) :
  Forall2 (fun a b => bucket_key a = bucket_key b) store (rank_within_buckets bucket_key ltb sort_key set_rank store).
Proof.
  apply Forall2_same_length_lookup_2.
  - symmetry. apply rank_within_buckets_length.
  - intros k a b Ha Hb.
    destruct (rank_within_buckets_lookup bucket_key ltb sort_key set_rank
                set_rank_sort_key store k a Ha) as (i & _ & Hout).
    rewrite Hout in Hb. injection Hb as <-.
    by rewrite set_rank_bucket_key.
Qed.

Lemma rank_within_buckets_partition (store : list A) (p : string) :
  get_rank <$> filter (fun a => bucket_key a = p) (rank_within_buckets bucket_key ltb sort_key set_rank store)
  ≡ₚ Some <$> seqZ 1 (Z.of_nat (length (filter (fun a => bucket_key a = p) (rank_within_buckets bucket_key ltb sort_key set_rank store)))).
Proof.
  set (out := rank_within_buckets bucket_key ltb sort_key set_rank store).
  set (sp := sorted_partition bucket_key ltb sort_key store p).
  assert (Hpart : partition_refs bucket_key p 0 out = partition_refs bucket_key p 0 store).
  { symmetry. apply partition_refs_ext, rank_within_buckets_bucket_keys. }
  assert (Hfilter : filter (fun a => bucket_key a = p) out
                    = (fun k => out !!! k) <$> partition_refs bucket_key p 0 store).
  { rewrite <- Hpart. symmetry. apply (partition_refs_total p []). }
  assert (Hperm : sp ≡ₚ partition_refs bucket_key p 0 store) by apply py_sort_perm.
  rewrite Hfilter, length_fmap, <- Hperm, <- list_fmap_compose.
  assert (Hsp : (get_rank ∘ (fun k => out !!! k)) <$> sp
                = Some <$> seqZ 1 (Z.of_nat (length sp))); [|by rewrite Hsp].
  apply list_eq. intros i. rewrite !list_lookup_fmap.
  destruct (sp !! i) as [k|] eqn:Hi; simpl.
  - assert (Hlt : (i < length sp)%nat) by (by eapply lookup_lt_Some).
    rewrite lookup_seqZ_lt by lia. simpl. f_equal.
    assert (Hk : k ∈ partition_refs bucket_key p 0 store).
    { rewrite <- Hperm. by eapply list_elem_of_lookup_2. }
    apply partition_refs_elem in Hk as (_ & a & Ha & Hpa).
    rewrite Nat.sub_0_r in Ha.
    destruct (rank_within_buckets_lookup bucket_key ltb sort_key set_rank
                set_rank_sort_key store k a Ha) as (j & Hj & Hout).
    rewrite Hpa in Hj. fold sp in Hj.
    assert (j = i) as ->.
    { eapply NoDup_lookup; [|exact Hj|exact Hi].
      apply py_sort_NoDup, partition_refs_NoDup. }
    fold (rank_within_buckets bucket_key ltb sort_key set_rank store) in Hout. fold out in Hout.
    rewrite (list_lookup_total_correct _ _ _ Hout), get_set_rank.
    f_equal. lia.
  - apply lookup_ge_None in Hi. rewrite lookup_seqZ_ge by lia. done.
Qed.
End BucketRanks.

Lemma calculate_position_ranks_relabels_witness :
  sample_pool !! 3%nat = Some (Raw.mk "Auston Matthews" "TOR" "C" 3 9 false) ∧
  length (calculate_position_ranks sample_pool) = length sample_pool ∧
  ∃ part i,
    is_sorted_partition sample_pool "C" part ∧
    part !! i = Some 3%nat ∧
    calculate_position_ranks sample_pool !! 3%nat
    = Some (Raw.mk "Auston Matthews" "TOR" "C" 3 (Z.of_nat i + 1) false).
Proof.
  split; [reflexivity|].
  apply (calculate_position_ranks_relabels sample_pool 3
           (Raw.mk "Auston Matthews" "TOR" "C" 3 9 false)).
  reflexivity.
Defined.

Example calculate_position_ranks_sample :
  Raw.position_rank <$> calculate_position_ranks sample_pool = [2; 1; 1; 3; 2].
Proof. vm_compute. reflexivity. Qed.

(** ** Consensus Aggregator *)

Lemma py_max_fold {A} (key : A -> nat) (xs : list A) (x : A) :
  let r := fold_left (fun best y => if (key best <? key y)%nat then y else best) xs x in
  r ∈ x :: xs ∧ (key x ≤ key r)%nat ∧ ∀ w, w ∈ xs → (key w ≤ key r)%nat.
Proof.
  revert x. induction xs as [|y xs IH]; intros x; simpl.
  - split_and!; [apply list_elem_of_here|lia|by intros w ?%elem_of_nil].
  - destruct (Nat.ltb_spec (key x) (key y)) as [Hlt|Hge].
    + destruct (IH y) as (Hin & Hle & Hall). split_and!.
      * by apply list_elem_of_further.
      * lia.
      * intros w [->|Hw]%elem_of_cons; [done|by apply Hall].
    + destruct (IH x) as (Hin & Hle & Hall). split_and!.
      * apply elem_of_cons in Hin as [->|Hin]; [apply list_elem_of_here|].
        by do 2 apply list_elem_of_further.
      * done.
      * intros w [->|Hw]%elem_of_cons; [lia|by apply Hall].
Qed.

Lemma py_max_spec {A} (key : A -> nat) (it : list A) :
  it ≠ [] →
  ∃ v, py_max key it = inr v ∧ v ∈ it ∧ ∀ w, w ∈ it → (key w ≤ key v)%nat.
Proof.
  destruct it as [|x xs]; [done|]. intros _. simpl.
  destruct (py_max_fold key xs x) as (Hin & Hle & Hall).
  eexists. split_and!; [done|done|].
  intros w [->|Hw]%elem_of_cons; [done|by apply Hall].
Qed.

Section AggregatorFacts.
Variable set_iter : list string -> list string.

Lemma py_set_perm (l : list string) : py_set set_iter l ≡ₚ remove_dups l.
Proof. unfold py_set. by case_decide. Qed.

Lemma py_set_elem_of (x : string) (l : list string) : x ∈ py_set set_iter l ↔ x ∈ l.
Proof. by rewrite py_set_perm, elem_of_remove_dups. Qed.

(** The vote never raises; its result is the default when there is no
    vote, and otherwise a value that was voted for and that no other value
    beats. *)
Lemma most_common_total (votes : list string) (dflt : string) :
  ∃ v, most_common set_iter votes dflt = inr v ∧
       (votes = [] → v = dflt) ∧
       (votes ≠ [] → v ∈ votes ∧
          ∀ w, w ∈ votes → (py_count w votes ≤ py_count v votes)%nat).
Proof.
  destruct votes as [|x votes]; simpl.
  { exists dflt. by split_and!. }
  destruct (py_max_spec (fun v => py_count v (x :: votes)) (py_set set_iter (x :: votes)))
    as (v & Hv & Hin & Hmax).
  { intros Hnil. assert (Hx : x ∈ py_set set_iter (x :: votes))
      by (rewrite py_set_elem_of; apply list_elem_of_here).
    rewrite Hnil in Hx. by apply elem_of_nil in Hx. }
  exists v. split_and!; [done|done|]. intros _. split.
  - by rewrite py_set_elem_of in Hin.
  - intros w Hw. apply Hmax. by rewrite py_set_elem_of.
Qed.

Lemma build_consensus_total (name : string) (players : list Raw.t) :
  ∃ t p,
    most_common set_iter (List.filter truthy_str (map Raw.team players)) "UNK" = inr t ∧
    most_common set_iter (List.filter truthy_str (map Raw.position players)) "F" = inr p ∧
    build_consensus set_iter name players
    = inr (Consensus.mk name t p (existsb Raw.multi_position players)
             (py_round1 (average (List.filter truthy_int (map Raw.overall_rank players))))
             (py_round1 (average (List.filter truthy_int (map Raw.position_rank players))))
             None None).
Proof.
  destruct (most_common_total (List.filter truthy_str (map Raw.team players)) "UNK")
    as (t & Ht & _).
  destruct (most_common_total (List.filter truthy_str (map Raw.position players)) "F")
    as (p & Hp & _).
  exists t, p. unfold build_consensus. by rewrite Ht, Hp.
Qed.

Lemma consensus_loop_cons name players groups (acc : list Consensus.t) c :
  players ≠ [] → build_consensus set_iter name players = inr c →
  consensus_loop set_iter ((name, players) :: groups) acc
  = consensus_loop set_iter groups (acc ++ [c]).
Proof.
  intros Hne Hc. cbn [consensus_loop]. rewrite Hc.
  destruct players; [done|reflexivity].
Qed.

Lemma consensus_loop_total (groups : list (string * list Raw.t)) (acc : list Consensus.t) :
  (∀ k vs, (k, vs) ∈ groups → vs ≠ []) →
  ∃ cs, consensus_loop set_iter groups acc = inr (acc ++ cs) ∧
        length cs = length groups.
Proof.
  revert acc. induction groups as [|[name players] groups IH]; intros acc Hne.
  - exists []. by rewrite app_nil_r.
  - assert (Hp : players ≠ []) by (apply (Hne name); apply list_elem_of_here).
    destruct (build_consensus_total name players) as (t & q & _ & _ & Hc).
    rewrite (consensus_loop_cons _ _ _ _ _ Hp Hc).
    match type of Hc with _ = inr ?c => destruct (IH (acc ++ [c])) as (cs & Hcs & Hlen) end.
    { intros k vs Hin. apply (Hne k). by apply list_elem_of_further. }
    eexists (_ :: cs). split.
    + rewrite Hcs. by rewrite <- app_assoc.
    + simpl. by rewrite Hlen.
Qed.

End AggregatorFacts.

Lemma group_fold_keys (l : list Raw.t) (d : list (string * list Raw.t)) :
  let d' := fold_left (fun d p => dd_append (Raw.name p) p d) l d in
  (NoDup d.*1 → NoDup d'.*1) ∧
  (∀ k, k ∈ d'.*1 ↔ k ∈ d.*1 ∨ k ∈ Raw.name <$> l) ∧
  ((∀ k vs, (k, vs) ∈ d → vs ≠ []) → ∀ k vs, (k, vs) ∈ d' → vs ≠ []).
Proof.
  revert d. induction l as [|p l IH]; intros d; simpl.
  - split_and!; [done| |done]. intros k. rewrite elem_of_nil. tauto.
  - destruct (IH (dd_append (Raw.name p) p d)) as (Hnd & Hkeys & Hne). split_and!.
    + intros Hd. by apply Hnd, dd_append_keys_NoDup.
    + intros k. rewrite Hkeys, dd_append_keys_elem. csimpl. rewrite elem_of_cons. tauto.
    + intros Hd. apply Hne. by apply dd_elem_nonempty.
Qed.

Lemma group_by_name_nonempty (pool : list Raw.t) k vs :
  (k, vs) ∈ group_by_name pool → vs ≠ [].
Proof.
  apply (group_fold_keys pool []). by intros ?? ?%elem_of_nil.
Qed.

(** One group for each distinct name. *)
Lemma group_by_name_length (pool : list Raw.t) :
  length (group_by_name pool) = length (remove_dups (Raw.name <$> pool)).
Proof.
  destruct (group_fold_keys pool []) as (Hnd & Hkeys & _).
  rewrite <- (length_fmap fst (group_by_name pool)).
  apply Permutation_length, NoDup_Permutation.
  - apply Hnd. constructor.
  - apply NoDup_remove_dups.
  - intros k. unfold group_by_name. rewrite Hkeys, elem_of_remove_dups.
    csimpl. rewrite elem_of_nil. tauto.
Qed.

(** The aggregator returns a list, one record for each distinct name: the
    records built from the groups, sorted, numbered, and ranked within
    their position. *)
Lemma create_consensus_ranking_total set_iter (pool : list Raw.t) :
  ∃ cs, length cs = length (remove_dups (Raw.name <$> pool)) ∧
    create_consensus_ranking set_iter pool
    = inr (rank_within_buckets Consensus.position Qltb Consensus.overall_rank
             Consensus.set_consensus_position_rank
             (imap (fun i => Consensus.set_consensus_overall_rank (Z.of_nat i + 1))
                (py_sort Qltb Consensus.overall_rank cs))).
Proof.
  destruct (consensus_loop_total set_iter (group_by_name pool) [])
    as (cs & Hcs & Hlen); [apply group_by_name_nonempty|].
  exists cs. split; [by rewrite Hlen, group_by_name_length|].
  unfold create_consensus_ranking. by rewrite Hcs.
Qed.







(** ** Averages *)

Lemma round_half_even_bound (q : Q) :
  (Qabs (inject_Z (round_half_even q) - q) <= 1 # 2)%Q.
Proof.
  destruct q as [n d]. unfold round_half_even. cbn [Qnum Qden].
  pose proof (Z.div_mod n (Z.pos d) ltac:(lia)) as Hdm.
  pose proof (Z.mod_pos_bound n (Z.pos d) ltac:(lia)) as Hr.
  set (f := n / Z.pos d) in *. set (r := n mod Z.pos d) in *.
  apply Qabs_Qle_condition.
  assert (Hcases : ∀ t,
    (t = f ∧ 2 * r <= Z.pos d) ∨ (t = f + 1 ∧ Z.pos d <= 2 * r) →
    (- (1 # 2) <= inject_Z t - (n # d) <= 1 # 2)%Q).
  { intros t Ht. unfold Qle, Qminus, Qplus, Qopp, inject_Z. cbn [Qnum Qden].
    rewrite !Pos2Z.inj_mul. nia. }
  apply Hcases.
  destruct (Z.compare_spec (2 * r) (Z.pos d)); [|left; lia|right; lia].
  destruct (Z.even f); [left|right]; lia.
Qed.

Lemma py_round1_tenth (x : Q) :
  (py_round1 x == inject_Z (round_half_even (x * 10)) / 10)%Q.
Proof. unfold py_round1. rewrite Qred_correct. apply Qmake_Qdiv. Qed.

Lemma fold_left_add (l : list Z) (a : Z) :
  fold_left Z.add l a = a + foldr Z.add 0 l.
Proof.
  revert a. induction l as [|x l IH]; intros a; simpl; [lia|].
  rewrite IH. lia.
Qed.

Lemma py_sum_foldr (l : list Z) : py_sum l = foldr Z.add 0 l.
Proof. unfold py_sum. by rewrite fold_left_add. Qed.

Lemma filter_truthy_int (l : list Z) :
  List.filter truthy_int l = filter (fun z => z ≠ 0) l.
Proof.
  induction l as [|x l IH]; simpl; [done|].
  unfold truthy_int at 1. destruct (Z.eqb_spec x 0) as [->|Hx]; simpl.
  - by rewrite filter_cons_False by (intros ?; done).
  - by rewrite filter_cons_True, IH by done.
Qed.

(** ** Floats *)

Lemma round_half_even_between (q : Q) (lo hi : Z) :
  (inject_Z lo <= q)%Q → (q <= inject_Z hi)%Q →
  lo <= round_half_even q <= hi.
Proof.
  destruct q as [n d]. unfold Qle, inject_Z, round_half_even. cbn [Qnum Qden].
  intros Hlo Hhi.
  pose proof (Z.div_mod n (Z.pos d) ltac:(lia)) as Hdm.
  pose proof (Z.mod_pos_bound n (Z.pos d) ltac:(lia)) as Hr.
  set (f := n / Z.pos d) in *. set (r := n mod Z.pos d) in *.
  assert (lo <= f) by nia.
  assert (f <= hi) by nia.
  assert (0 < r → f + 1 <= hi) by nia.
  destruct (Z.compare_spec (2 * r) (Z.pos d)); [|lia|lia].
  destruct (Z.even f); lia.
Qed.

Lemma py_round1_between (x : Q) (lo hi : Z) :
  (inject_Z lo <= x)%Q → (x <= inject_Z hi)%Q →
  (inject_Z lo <= py_round1 x <= inject_Z hi)%Q.
Proof.
  intros Hlo Hhi.
  destruct (round_half_even_between (x * 10) (lo * 10) (hi * 10)) as [Hl Hh].
  - rewrite inject_Z_mult. apply Qmult_le_compat_r; [done|]. by compute.
  - rewrite inject_Z_mult. apply Qmult_le_compat_r; [done|]. by compute.
  - unfold py_round1. rewrite Qred_correct.
    unfold Qle, inject_Z. cbn [Qnum Qden]. lia.
Qed.

Lemma foldr_add_between (l : list Z) (lo hi : Z) :
  Forall (fun z => lo <= z <= hi) l →
  Z.of_nat (length l) * lo <= foldr Z.add 0 l <= Z.of_nat (length l) * hi.
Proof. induction 1 as [|z l Hz _ IH]; simpl; lia. Qed.

Lemma mean_between (l : list Z) (lo hi : Z) :
  l ≠ [] → Forall (fun z => lo <= z <= hi) l →
  (inject_Z lo <= mean l <= inject_Z hi)%Q.
Proof.
  intros Hne Hall. pose proof (foldr_add_between l lo hi Hall) as Hsum.
  unfold mean. set (s := foldr Z.add 0 l) in *.
  assert (Hn : 0 < Z.of_nat (length l)) by (destruct l; [done|simpl; lia]).
  set (n := Z.of_nat (length l)) in *.
  assert (HnQ : (0 < inject_Z n)%Q) by (unfold Qlt, inject_Z; simpl; lia).
  split.
  - apply Qle_shift_div_l; [done|]. rewrite <- inject_Z_mult.
    unfold Qle, inject_Z. simpl. lia.
  - apply Qle_shift_div_r; [done|]. rewrite <- inject_Z_mult.
    unfold Qle, inject_Z. simpl. lia.
Qed.

Lemma pow2_pos (e : Z) : (0 < PyFloat.pow2 e)%Q.
Proof. by apply Qpower_0_lt. Qed.

Lemma pow2_plus (a b : Z) : (PyFloat.pow2 (a + b) == PyFloat.pow2 a * PyFloat.pow2 b)%Q.
Proof. by apply Qpower_plus. Qed.

Lemma pow2_inject (e : Z) : 0 <= e → (PyFloat.pow2 e == inject_Z (2 ^ e))%Q.
Proof. intros He. unfold PyFloat.pow2. by rewrite (Zpower_Qpower 2 e He). Qed.

Lemma pow2_le (a b : Z) : a <= b → (PyFloat.pow2 a <= PyFloat.pow2 b)%Q.
Proof. intros Hab. by apply Qpower_le_compat_l. Qed.

Lemma pow2_lt_inv (a b : Z) : (PyFloat.pow2 a < PyFloat.pow2 b)%Q → a < b.
Proof. intros Hab. by apply (Qpower_lt_compat_l_inv 2). Qed.

Lemma pow2_cancel (e : Z) : (PyFloat.pow2 (- e) * PyFloat.pow2 e == 1)%Q.
Proof. rewrite <- pow2_plus. by replace (- e + e) with 0 by lia. Qed.

Lemma floor_log2_spec (q : Q) :
  (0 < q)%Q →
  (PyFloat.pow2 (PyFloat.floor_log2 q) <= q < PyFloat.pow2 (PyFloat.floor_log2 q + 1))%Q.
Proof.
  intros Hq. destruct q as [a b]. 
  assert (Ha : 0 < a) by (unfold Qlt in Hq; simpl in Hq; lia).
  unfold PyFloat.floor_log2. cbn [Qnum Qden].
  set (la := Z.log2 a). set (lb := Z.log2 (Z.pos b)).
  pose proof (Z.log2_spec a Ha) as [Ha1 Ha2]. 
  pose proof (Z.log2_spec (Z.pos b) eq_refl) as [Hb1 Hb2].
  fold la in Ha1, Ha2. fold lb in Hb1, Hb2.
  assert (Hla : 0 <= la) by apply Z.log2_nonneg.
  assert (Hlb : 0 <= lb) by apply Z.log2_nonneg.
  assert (Hab : ((a # b) * inject_Z (Z.pos b) == inject_Z a)%Q).
  { unfold Qeq, Qmult, inject_Z. simpl. lia. }
  assert (Hbpos : (0 < inject_Z (Z.pos b))%Q) by (unfold Qlt; simpl; lia).
  assert (Hlow : (PyFloat.pow2 (la - lb - 1) < a # b)%Q).
  { apply (Qmult_lt_r _ _ (inject_Z (Z.pos b)) Hbpos). rewrite Hab.
    apply Qlt_le_trans with (PyFloat.pow2 (la - lb - 1) * PyFloat.pow2 (lb + 1))%Q.
    - apply Qmult_lt_l; [apply pow2_pos|].
      rewrite (pow2_inject (lb + 1)) by lia. rewrite <- Zlt_Qlt. exact Hb2.
    - rewrite <- pow2_plus. replace (la - lb - 1 + (lb + 1)) with la by lia.
      rewrite (pow2_inject la Hla). rewrite <- Zle_Qle. exact Ha1. }
  assert (Hhigh : (a # b < PyFloat.pow2 (la - lb + 1))%Q).
  { apply (Qmult_lt_r _ _ (inject_Z (Z.pos b)) Hbpos). rewrite Hab.
    apply Qlt_le_trans with (PyFloat.pow2 (la - lb + 1) * PyFloat.pow2 lb)%Q.
    - rewrite <- pow2_plus. replace (la - lb + 1 + lb) with (la + 1) by lia.
      rewrite (pow2_inject (la + 1)) by lia. rewrite <- Zlt_Qlt. exact Ha2.
    - apply Qmult_le_l; [apply pow2_pos|].
      rewrite (pow2_inject lb Hlb). rewrite <- Zle_Qle. exact Hb1. }
  destruct (Qle_bool (PyFloat.pow2 (la - lb)) (a # b)) eqn:E.
  - apply Qle_bool_iff in E. by split.
  - split; [by apply Qlt_le_weak|].
    replace (la - lb - 1 + 1) with (la - lb) by lia.
    apply Qnot_le_lt. intros Hle. apply Qle_bool_iff in Hle. congruence.
Qed.

Lemma ulp_exp_nonpos (q : Q) :
  (0 < q)%Q → (q < PyFloat.pow2 53)%Q → PyFloat.ulp_exp q <= 0.
Proof.
  intros Hq Hlt. destruct (floor_log2_spec q Hq) as [Hlo _].
  assert (PyFloat.floor_log2 q < 53).
  { apply pow2_lt_inv. by apply Qle_lt_trans with q. }
  unfold PyFloat.ulp_exp. lia.
Qed.

Lemma nearest_pos_eq (q : Q) :
  (PyFloat.nearest_pos q
   == inject_Z (round_half_even (q * PyFloat.pow2 (- PyFloat.ulp_exp q)))
      * PyFloat.pow2 (PyFloat.ulp_exp q))%Q.
Proof. unfold PyFloat.nearest_pos. apply Qred_correct. Qed.

(** The float nearest to a positive [q] is no farther from it than half
    the weight of its last bit. *)
Lemma nearest_pos_error (q : Q) :
  (Qabs (PyFloat.nearest_pos q - q) <= (1 # 2) * PyFloat.pow2 (PyFloat.ulp_exp q))%Q.
Proof.
  rewrite nearest_pos_eq. set (e := PyFloat.ulp_exp q).
  pose proof (round_half_even_bound (q * PyFloat.pow2 (- e))) as Hb.
  set (M := inject_Z (round_half_even (q * PyFloat.pow2 (- e)))) in *.
  pose proof (pow2_pos e) as Hpos.
  assert (Heq : (M * PyFloat.pow2 e - q
                 == (M - q * PyFloat.pow2 (- e)) * PyFloat.pow2 e)%Q).
  { transitivity (M * PyFloat.pow2 e - q * (PyFloat.pow2 (- e) * PyFloat.pow2 e))%Q;
      [|ring].
    rewrite (pow2_cancel e). ring. }
  rewrite Heq, Qabs_Qmult, (Qabs_pos (PyFloat.pow2 e)) by (by apply Qlt_le_weak).
  apply Qmult_le_compat_r; [exact Hb|by apply Qlt_le_weak].
Qed.

(** Its significand has 53 bits, unless the number is subnormal. *)
Lemma nearest_pos_significand (q : Q) :
  (0 < q)%Q → -1074 <= PyFloat.floor_log2 q - 52 →
  2 ^ 52 <= round_half_even (q * PyFloat.pow2 (- PyFloat.ulp_exp q)) <= 2 ^ 53.
Proof.
  intros Hq Hnorm. destruct (floor_log2_spec q Hq) as [Hlo Hhi].
  assert (He : PyFloat.ulp_exp q = PyFloat.floor_log2 q - 52)
    by (unfold PyFloat.ulp_exp; lia).
  rewrite He. set (fl := PyFloat.floor_log2 q) in *.
  pose proof (pow2_pos (- (fl - 52))) as Hpos.
  apply round_half_even_between.
  - rewrite <- (pow2_inject 52) by lia.
    replace 52 with (fl + - (fl - 52)) at 1 by lia. rewrite pow2_plus.
    by apply Qmult_le_r.
  - rewrite <- (pow2_inject 53) by lia.
    replace 53 with (fl + 1 + - (fl - 52)) at 1 by lia. rewrite pow2_plus.
    apply Qlt_le_weak. by apply Qmult_lt_r.
Qed.

Lemma nearest_positive (q : Q) : (0 < q)%Q → PyFloat.nearest q = PyFloat.nearest_pos q.
Proof.
  destruct q as [[|a|a] b]; unfold Qlt; simpl; intros Hq; try lia. done.
Qed.

Lemma nearest_pos_between (q : Q) (lo hi : Z) :
  PyFloat.ulp_exp q <= 0 →
  (inject_Z lo <= q)%Q → (q <= inject_Z hi)%Q →
  (inject_Z lo <= PyFloat.nearest_pos q <= inject_Z hi)%Q.
Proof.
  intros He Hlo Hhi. rewrite nearest_pos_eq.
  set (e := PyFloat.ulp_exp q) in *.
  pose proof (pow2_pos (- e)) as Hpos.
  pose proof (pow2_inject (- e) ltac:(lia)) as HP.
  destruct (round_half_even_between (q * PyFloat.pow2 (- e)) (lo * 2 ^ (- e)) (hi * 2 ^ (- e)))
    as [Hl Hh].
  { rewrite inject_Z_mult, <- HP. by apply Qmult_le_r. }
  { rewrite inject_Z_mult, <- HP. by apply Qmult_le_r. }
  set (M := round_half_even (q * PyFloat.pow2 (- e))) in *.
  assert (Hback : (inject_Z M * PyFloat.pow2 e * PyFloat.pow2 (- e) == inject_Z M)%Q).
  { rewrite <- Qmult_assoc, (Qmult_comm (PyFloat.pow2 e)), pow2_cancel. apply Qmult_1_r. }
  split.
  - apply (Qmult_le_r _ _ (PyFloat.pow2 (- e)) Hpos). rewrite Hback, HP, <- inject_Z_mult.
    by rewrite <- Zle_Qle.
  - apply (Qmult_le_r _ _ (PyFloat.pow2 (- e)) Hpos). rewrite Hback, HP, <- inject_Z_mult.
    by rewrite <- Zle_Qle.
Qed.

(** A float between two integers that a float holds exactly stays between them *)
Lemma nearest_between (q : Q) (lo hi : Z) :
  0 < lo → hi < 2 ^ 53 →
  (inject_Z lo <= q)%Q → (q <= inject_Z hi)%Q →
  (inject_Z lo <= PyFloat.nearest q <= inject_Z hi)%Q.
Proof.
  intros Hlo0 Hhi53 Hlo Hhi.
  assert (Hq : (0 < q)%Q).
  { apply Qlt_le_trans with (inject_Z lo); [|done]. unfold Qlt. simpl. lia. }
  rewrite (nearest_positive q Hq). apply nearest_pos_between; [|done|done].
  apply ulp_exp_nonpos; [done|].
  apply Qle_lt_trans with (inject_Z hi); [done|].
  rewrite (pow2_inject 53) by lia. by rewrite <- Zlt_Qlt.
Qed.

Lemma true_div_mean (r : Z) (rs : list Z) :
  (py_sum (r :: rs) # Pos.of_nat (length (r :: rs)) == mean (r :: rs))%Q.
Proof.
  unfold mean. rewrite py_sum_foldr, Qmake_Qdiv.
  replace (Z.pos (Pos.of_nat (length (r :: rs)))) with (Z.of_nat (length (r :: rs))); [done|].
  cbn [length]. lia.
Qed.

Lemma true_div_between (a : Z) (b : positive) (lo hi : Z) :
  0 < lo → hi < 2 ^ 53 →
  (inject_Z lo <= a # b)%Q → (a # b <= inject_Z hi)%Q →
  ∃ x, PyFloat.true_div a b = Some x ∧ x = PyFloat.nearest (a # b) ∧
       (inject_Z lo <= x <= inject_Z hi)%Q.
Proof.
  intros Hlo0 Hhi53 Hlo Hhi.
  destruct (nearest_between (a # b) lo hi Hlo0 Hhi53 Hlo Hhi) as [Hl Hh].
  exists (PyFloat.nearest (a # b)). split; [|done].
  unfold PyFloat.true_div.
  destruct (Qle_bool (PyFloat.pow2 1024) (Qabs (PyFloat.nearest (a # b)))) eqn:E; [|done].
  exfalso. apply Qle_bool_iff in E.
  rewrite Qabs_pos in E.
  - assert (Hlt : (inject_Z hi < PyFloat.pow2 1024)%Q).
    { apply Qlt_le_trans with (PyFloat.pow2 53).
      - rewrite (pow2_inject 53) by lia. by rewrite <- Zlt_Qlt.
      - by apply pow2_le. }
    apply (Qlt_irrefl (PyFloat.pow2 1024)).
    eapply Qle_lt_trans; [exact E|]. eapply Qle_lt_trans; [exact Hh|exact Hlt].
  - apply Qle_trans with (inject_Z lo); [|done]. unfold Qle. simpl. lia.
Qed.

Lemma round_half_even_frac (q : Q) (a : Z) (b : positive) :
  (q == a # b)%Q → 2 * Z.abs (round_half_even q * Z.pos b - a) <= Z.pos b.
Proof.
  intros Hq. pose proof (round_half_even_bound q) as Hb.
  set (M := round_half_even q) in *. rewrite Hq in Hb. apply Qabs_Qle_condition in Hb as [Hl Hh].
  unfold Qle, Qminus, Qplus, Qopp, inject_Z in Hl, Hh. simpl in Hl, Hh. lia.
Qed.

Lemma tenth_error (s n P M k : Z) :
  0 < n → 10 * n < P →
  2 * Z.abs (M * n - s * P) <= n →
  2 * Z.abs (k * P - 10 * M) <= P →
  2 * Z.abs (k * n - 10 * s) <= n.
Proof.
  intros Hn HP HA HB.
  assert (Heq : (k * n - 10 * s) * P = n * (k * P - 10 * M) + 10 * (M * n - s * P)) by ring.
  assert (Hle : 2 * Z.abs (k * n - 10 * s) * P < (n + 1) * P).
  { replace (2 * Z.abs (k * n - 10 * s) * P) with (2 * Z.abs ((k * n - 10 * s) * P))
      by (rewrite Z.abs_mul, (Z.abs_eq P); lia).
    rewrite Heq.
    pose proof (Z.abs_triangle (n * (k * P - 10 * M)) (10 * (M * n - s * P))) as Ht.
    rewrite !Z.abs_mul, (Z.abs_eq n), (Z.abs_eq 10) in Ht by lia.
    nia. }
  apply Z.mul_lt_mono_pos_r in Hle; lia.
Qed.

Lemma sum_ge_length (l : list Z) :
  Forall (fun z => 0 < z) l → Z.of_nat (length l) <= foldr Z.add 0 l.
Proof. induction 1 as [|z l Hz _ IH]; simpl; lia. Qed.

Lemma nearest_exact_ratio (q : Q) (P : Z) :
  0 < P → (PyFloat.pow2 (- PyFloat.ulp_exp q) == inject_Z P)%Q →
  (PyFloat.nearest_pos q
   == round_half_even (q * PyFloat.pow2 (- PyFloat.ulp_exp q)) # Z.to_pos P)%Q.
Proof.
  intros HP Hpow. rewrite nearest_pos_eq.
  set (M := round_half_even (q * PyFloat.pow2 (- PyFloat.ulp_exp q))).
  assert (Hnz : ¬ (inject_Z P == 0)%Q) by (unfold Qeq; simpl; lia).
  apply (Qmult_inj_r _ _ (inject_Z P) Hnz).
  rewrite <- Hpow at 1.
  rewrite <- Qmult_assoc, (Qmult_comm (PyFloat.pow2 _)), pow2_cancel, Qmult_1_r.
  pose proof (Z2Pos.id P HP) as Hid.
  unfold Qeq, Qmult, inject_Z. simpl. rewrite ?Pos.mul_1_r. rewrite Hid. ring.
Qed.

Lemma true_div_rounded (s : Z) (n : positive) :
  Z.pos n <= s → 20 * s < 2 ^ 53 →
  ∃ x, PyFloat.true_div s n = Some x ∧ (Qabs (py_round1 x - (s # n)) <= 1 # 20)%Q.
Proof.
  intros Hn Hs.
  assert (Hq1 : (inject_Z 1 <= s # n)%Q) by (unfold Qle; simpl; lia).
  assert (Hqs : (s # n <= inject_Z s)%Q) by (unfold Qle; simpl; nia).
  destruct (true_div_between s n 1 s) as (x0 & Hx0 & -> & _); [lia|lia|done|done|].
  exists (PyFloat.nearest (s # n)). split; [done|].
  assert (Hq : (0 < s # n)%Q) by (unfold Qlt; simpl; lia).
  rewrite (nearest_positive _ Hq).
  destruct (floor_log2_spec _ Hq) as [Hlo Hhi].
  set (fl := PyFloat.floor_log2 (s # n)) in *.
  assert (Hfl0 : 0 <= fl).
  { assert (0 < fl + 1); [|lia]. apply pow2_lt_inv.
    apply Qle_lt_trans with (s # n); [|done]. exact Hq1. }
  assert (Hfl49 : fl < 49).
  { apply pow2_lt_inv. apply Qle_lt_trans with (s # n); [done|].
    apply Qle_lt_trans with (inject_Z s); [done|].
    rewrite (pow2_inject 49) by lia. rewrite <- Zlt_Qlt. lia. }
  assert (He : PyFloat.ulp_exp (s # n) = fl - 52).
  { unfold PyFloat.ulp_exp. fold fl. lia. }
  set (P := 2 ^ (52 - fl)).
  assert (HP0 : 0 < P) by (apply Z.pow_pos_nonneg; lia).
  assert (Hpow : (PyFloat.pow2 (- PyFloat.ulp_exp (s # n)) == inject_Z P)%Q).
  { rewrite He. replace (- (fl - 52)) with (52 - fl) by lia. apply pow2_inject. lia. }
  assert (Hsplit : 2 ^ fl * P = 2 ^ 52).
  { unfold P. rewrite <- Z.pow_add_r by lia. f_equal. lia. }
  assert (Hnfl : 2 ^ fl * Z.pos n <= s).
  { rewrite (pow2_inject fl Hfl0) in Hlo. unfold Qle in Hlo. simpl in Hlo. lia. }
  assert (H2fl : 0 < 2 ^ fl) by (apply Z.pow_pos_nonneg; lia).
  assert (HPn : 10 * Z.pos n < P) by nia.
  pose proof (nearest_exact_ratio (s # n) P HP0 Hpow) as Hx.
  set (M := round_half_even ((s # n) * PyFloat.pow2 (- PyFloat.ulp_exp (s # n)))) in *.
  assert (HM : 2 * Z.abs (M * Z.pos n - s * P) <= Z.pos n).
  { apply round_half_even_frac. rewrite Hpow.
    unfold Qeq, Qmult, inject_Z. simpl. lia. }
  set (x := PyFloat.nearest_pos (s # n)) in *.
  assert (Hk : 2 * Z.abs (round_half_even (x * 10) * P - 10 * M) <= P).
  { rewrite <- (Z2Pos.id P HP0) at 1 2. apply round_half_even_frac. rewrite Hx.
    unfold Qeq, Qmult. simpl. lia. }
  pose proof (tenth_error s (Z.pos n) P M _ ltac:(lia) HPn HM Hk) as Hkn.
  rewrite py_round1_tenth. set (k := round_half_even (x * 10)) in *.
  apply Qabs_Qle_condition.
  unfold Qle, Qminus, Qplus, Qopp, Qdiv, Qmult, Qinv, inject_Z. simpl. lia.
Qed.

Lemma foldr_add_filter (l : list Z) :
  foldr Z.add 0 (filter (fun z => z ≠ 0) l) = foldr Z.add 0 l.
Proof.
  induction l as [|z l IH]; [done|].
  destruct (decide (z = 0)) as [->|Hz].
  - rewrite filter_cons_False by (intros ?; done). simpl. exact IH.
  - rewrite filter_cons_True by done. simpl. by rewrite IH.
Qed.

(** The floats nearest to one tenth and one third, to two integers past
    [2 ** 53] halfway between two floats, and to three numbers halfway
    between two subnormal floats. *)
Example nearest_ex :
  PyFloat.nearest (1 # 10) = (3602879701896397 # 2 ^ 55)%Q ∧
  PyFloat.nearest (1 # 3) = (6004799503160661 # 2 ^ 54)%Q ∧
  PyFloat.nearest (- (1 # 10)) = (- (3602879701896397 # 2 ^ 55))%Q ∧
  PyFloat.nearest 9007199254740993 = 9007199254740992%Q ∧
  PyFloat.nearest 9007199254740995 = 9007199254740996%Q ∧
  PyFloat.nearest (1 # 2 ^ 1075) = 0%Q ∧
  PyFloat.nearest (3 # 2 ^ 1075) = (1 # 2 ^ 1073)%Q ∧
  PyFloat.nearest (5 # 2 ^ 1075) = (1 # 2 ^ 1073)%Q.
Proof. vm_compute. repeat split; reflexivity. Qed.

(** The float layer on small groups, on a mean that is a tie between two
    tenths, on a rank that no float holds and on a quotient out of range. *)
Example float_rank_ex :
  float_rank [5; 7] = Some 6%Q ∧ float_rank [0; 0] = Some 999%Q ∧
  float_rank [1; 2; 2] = Some (7656119366529843 # 4503599627370496)%Q ∧
  float_rank (2 :: repeat 1 19) = Some (2476979795053773 # 2251799813685248)%Q ∧
  py_round1 (average (2 :: repeat 1 19)) = 1%Q ∧
  float_rank [9007199254740993] = Some 9007199254740992%Q ∧
  float_rank [2 ^ 1024 - 2 ^ 970 - 1] = Some (inject_Z (2 ^ 1024 - 2 ^ 971)) ∧
  float_rank [2 ^ 1024 - 2 ^ 970] = None.
Proof. vm_compute. repeat split; reflexivity. Qed.

(** On a rank that no float holds the consensus is not the mean rounded
    to one decimal place: the single rank [2 ** 53 + 1] gives [2 ** 53],
    one away from it. And a rank past the range of the floats leaves the
    aggregator with [OverflowError]. *)
Lemma float_rank_not_rounded_mean :
  float_rank [9007199254740993] = Some 9007199254740992%Q ∧
  ¬ consensus_rank_of [9007199254740993] 9007199254740992%Q ∧
  float_rank [2 * 10 ^ 308] = None.
Proof.
  split_and!.
  - vm_compute. reflexivity.
  - intros [_ Hd]. vm_compute in Hd. by apply Hd.
  - vm_compute. reflexivity.
Qed.

(** C5, as the code has it. When the ranks of a group are not negative and
    twenty times their sum is below [2 ** 53], the consensus rank is the
    float nearest to the mean of the ranks that are there rounded to one
    decimal place, a tenth within one twentieth of the mean; it is 999
    when no member has a rank, and ranks 5 and 7 give 6.0. [values] are the
    overall ranks of the members, or their position ranks: the code treats
    the two keys alike. *)
Theorem float_rank_rounded_mean (values : list Z) :
  Forall (fun z => 0 <= z) values →
  20 * foldr Z.add 0 values < 2 ^ 53 →
  float_rank_of values (float_rank values) ∧
  (values = [5; 7] → float_rank values = Some 6%Q).
Proof.
  intros Hpos Hsum. split; [|intros ->; vm_compute; reflexivity].
  unfold float_rank_of, float_rank. rewrite filter_truthy_int.
  pose proof (foldr_add_filter values) as Hs.
  assert (Hv : Forall (fun z => 0 < z) (filter (fun z => z ≠ 0) values)).
  { apply Forall_forall. intros z [Hz Hin]%list_elem_of_filter.
    eapply Forall_forall in Hpos; [|exact Hin]. simpl in Hpos. lia. }
  destruct (filter (fun z => z ≠ 0) values) as [|r valid] eqn:E; [reflexivity|].
  pose proof (sum_ge_length _ Hv) as Hlen.
  destruct (true_div_rounded (py_sum (r :: valid)) (Pos.of_nat (length (r :: valid))))
    as (x & Hx & Hr).
  { rewrite py_sum_foldr. cbn [length] in *. lia. }
  { rewrite py_sum_foldr, Hs. exact Hsum. }
  unfold float_average. rewrite Hx. exists (py_round1 x). split; [|done].
  split; [eexists; apply py_round1_tenth|].
  by rewrite <- true_div_mean.
Qed.

Lemma float_rank_rounded_mean_witness :
  (∃ t, rounded_to_tenth (mean [5; 7]) t ∧ float_rank [5; 0; 7] = Some (PyFloat.nearest t)) ∧
  float_rank [5; 7] = Some 6%Q.
Proof.
  split.
  - apply (float_rank_rounded_mean [5; 0; 7]); [|vm_compute; reflexivity].
    repeat (constructor; [lia|]). constructor.
  - apply (float_rank_rounded_mean [5; 7]); [|vm_compute; reflexivity|reflexivity].
    repeat (constructor; [lia|]). constructor.
Defined.

(** ** Plurality votes *)





(** ** Two runs *)

Lemma top_count_ge {A} (f : A -> nat) (l : list A) (w : A) :
  w ∈ l → (f w ≤ foldr Nat.max 0 (map f l))%nat.
Proof.
  induction l as [|x l IH]; simpl; [by intros ?%elem_of_nil|].
  intros [->|Hw]%elem_of_cons; [lia|]. specialize (IH Hw). lia.
Qed.

Lemma top_count_attained {A} (f : A -> nat) (l : list A) :
  l ≠ [] → ∃ w, w ∈ l ∧ f w = foldr Nat.max 0%nat (map f l).
Proof.
  induction l as [|x l IH]; [done|]. intros _. simpl.
  destruct l as [|y l].
  - exists x. split; [apply list_elem_of_here|simpl; lia].
  - destruct IH as (w & Hw & Hf); [done|].
    destruct (Nat.max_spec (f x) (foldr Nat.max 0%nat (map f (y :: l)))) as [[_ ->]|[_ ->]].
    + exists w. split; [by apply list_elem_of_further|done].
    + exists x. split; [apply list_elem_of_here|done].
Qed.

(** Without a tie the vote does not depend on the iteration order. *)
Lemma untied_most_common it1 it2 (votes : list string) (dflt : string) :
  untied votes = true → most_common it1 votes dflt = most_common it2 votes dflt.
Proof.
  intros Hu.
  destruct (most_common_total it1 votes dflt) as (v1 & -> & Hd1 & Hm1).
  destruct (most_common_total it2 votes dflt) as (v2 & -> & Hd2 & Hm2).
  f_equal. destruct (decide (votes = [])) as [Hnil|Hne].
  { by rewrite Hd1, Hd2. }
  destruct (Hm1 Hne) as [Hin1 Hmax1]. destruct (Hm2 Hne) as [Hin2 Hmax2].
  unfold untied in Hu. apply Nat.leb_le in Hu.
  set (top := foldr Nat.max 0%nat (map (fun v => py_count v votes) votes)) in *.
  set (tops := remove_dups (List.filter (fun v => py_count v votes =? top)%nat votes)) in *.
  assert (Htop : ∀ v, v ∈ votes →
            (∀ w, w ∈ votes → (py_count w votes ≤ py_count v votes)%nat) → v ∈ tops).
  { intros v Hv Hmax. unfold tops. rewrite elem_of_remove_dups, list_elem_of_In.
    apply filter_In. split; [by apply list_elem_of_In|]. apply Nat.eqb_eq.
    destruct (top_count_attained (fun v => py_count v votes) votes Hne) as (w & Hw & Hwt).
    pose proof (top_count_ge (fun v => py_count v votes) votes v Hv) as Hle.
    specialize (Hmax w Hw). fold top in Hwt, Hle. simpl in *. lia. }
  pose proof (Htop v1 Hin1 Hmax1) as H1. pose proof (Htop v2 Hin2 Hmax2) as H2.
  destruct tops as [|x [|y tops]]; simpl in Hu.
  - by apply elem_of_nil in H1.
  - apply list_elem_of_singleton in H1, H2. congruence.
  - lia.
Qed.

Lemma untied_build_consensus it1 it2 (name : string) (players : list Raw.t) :
  untied (List.filter truthy_str (map Raw.team players)) = true →
  untied (List.filter truthy_str (map Raw.position players)) = true →
  build_consensus it1 name players = build_consensus it2 name players.
Proof.
  intros Ht Hp. unfold build_consensus.
  by rewrite (untied_most_common it1 it2 _ _ Ht), (untied_most_common it1 it2 _ _ Hp).
Qed.

Lemma untied_consensus_loop it1 it2 (groups : list (string * list Raw.t)) acc :
  forallb (fun g : string * list Raw.t =>
             untied (List.filter truthy_str (map Raw.team g.2)) &&
             untied (List.filter truthy_str (map Raw.position g.2))) groups = true →
  consensus_loop it1 groups acc = consensus_loop it2 groups acc.
Proof.
  revert acc. induction groups as [|[name players] groups IH]; intros acc Hu; [done|].
  cbn [forallb] in Hu. apply andb_true_iff in Hu as [Hg Hu].
  apply andb_true_iff in Hg as [Ht Hp]. cbn [snd] in Ht, Hp.
  cbn [consensus_loop]. rewrite (untied_build_consensus it1 it2 name players Ht Hp).
  destruct players; [by apply IH|].
  destruct (build_consensus it2 name (t :: players)); [done|]. simpl. by apply IH.
Qed.

(** C3, as the code has it. Two runs iterate over the sets of teams and
    positions in orders of their own. On a pool in which no group has a
    tie for the most frequent team or position, the two runs return the
    same list of records, field by field. *)
Theorem consolidate_two_runs it1 it2 (pool : list Raw.t) :
  no_tied_vote (calculate_position_ranks pool) = true →
  consolidate it1 pool = consolidate it2 pool.
Proof.
  intros Hu. unfold consolidate, create_consensus_ranking.
  by rewrite (untied_consensus_loop it1 it2 _ [] Hu).
Qed.

Lemma consolidate_two_runs_witness :
  no_tied_vote (calculate_position_ranks majority_pool) = true ∧
  consolidate iter_fwd majority_pool = consolidate iter_rev majority_pool.
Proof.
  split; [vm_compute; reflexivity|].
  apply (consolidate_two_runs iter_fwd iter_rev majority_pool).
  vm_compute; reflexivity.
Defined.

(** In [majority_pool] the two runs do iterate over the teams and the
    positions of the first group in different orders, and both count two
    votes for the winner against one. *)
Example majority_pool_votes :
  group_by_name majority_pool !! 0%nat
  = Some ("Mikko Rantanen",
          [Raw.mk "Mikko Rantanen" "COL" "RW" 5 5 false;
           Raw.mk "Mikko Rantanen" "DAL" "LW" 7 7 false;
           Raw.mk "Mikko Rantanen" "DAL" "RW" 9 9 false]) ∧
  py_set iter_fwd ["COL"; "DAL"; "DAL"] = ["COL"; "DAL"] ∧
  py_set iter_rev ["COL"; "DAL"; "DAL"] = ["DAL"; "COL"] ∧
  py_set iter_fwd ["RW"; "LW"; "RW"] = ["LW"; "RW"] ∧
  py_set iter_rev ["RW"; "LW"; "RW"] = ["RW"; "LW"] ∧
  most_common iter_fwd ["COL"; "DAL"; "DAL"] "UNK" = inr "DAL" ∧
  most_common iter_rev ["COL"; "DAL"; "DAL"] "UNK" = inr "DAL" ∧
  most_common iter_fwd ["RW"; "LW"; "RW"] "F" = inr "RW" ∧
  most_common iter_rev ["RW"; "LW"; "RW"] "F" = inr "RW".
Proof. vm_compute. repeat split; reflexivity. Qed.

Example consolidate_majority_pool :
  consolidate iter_rev majority_pool
  = inr [Consensus.mk "Cale Makar" "COL" "D" false (5 # 2) (3 # 2) (Some 1) (Some 1);
         Consensus.mk "Mikko Rantanen" "DAL" "RW" false 7 (13 # 10) (Some 2) (Some 1)].
Proof. vm_compute. reflexivity. Qed.

(** With a tie, the team of the consensus record follows the iteration
    order of the run: the two runs differ. *)
Lemma consolidate_two_runs_differ :
  consolidate iter_fwd traded_pool ≠ consolidate iter_rev traded_pool.
Proof. vm_compute. discriminate. Qed.

Example consolidate_traded_fwd :
  consolidate iter_fwd traded_pool
  = inr [Consensus.mk "Mikko Rantanen" "COL" "RW" false 6 (3 # 2) (Some 1) (Some 1)].
Proof. vm_compute. reflexivity. Qed.

Example consolidate_traded_rev :
  consolidate iter_rev traded_pool
  = inr [Consensus.mk "Mikko Rantanen" "DAL" "RW" false 6 (3 # 2) (Some 1) (Some 1)].
Proof. vm_compute. reflexivity. Qed.

(** ** Multi-position eligibility *)

Lemma hh_line_flag line p : hh_line line = Some p → flagged_by HockeyHandbook p.
Proof.
  unfold hh_line, flagged_by. intros Hp.
  repeat case_match; simplify_eq; reflexivity.
Qed.

Lemma espn_line_flag line p : espn_line line = Some p → flagged_by ESPN p.
Proof.
  unfold espn_line, flagged_by. intros Hp.
  repeat case_match; simplify_eq; reflexivity.
Qed.

Lemma nhl_line_flag line p : nhl_line line = Some p → flagged_by NHL p.
Proof.
  unfold nhl_line, flagged_by. intros Hp.
  repeat case_match; simplify_eq; reflexivity.
Qed.

Lemma fantasyprops_row_flag filepath row p :
  fantasyprops_row filepath row = inr p → flagged_by FantasyPros p.
Proof.
  unfold fantasyprops_row, flagged_by, bind, row_get, py_int, raise, ret. intros Hp.
  repeat case_match; simplify_eq; reflexivity.
Qed.

(** The three line loops have one shape, and so have the proofs about
    them: an induction on the lines, the list built so far being any list. *)
Ltac line_loop_induction lines players IH :=
  revert players; induction lines as [|? lines IH]; intros players.

Ltac solve_loop_flag parse_line line_flag :=
  match goal with
  | |- Forall _ ?players → Forall _ (_ ?lines ?players) =>
      let IH := fresh "IH" in
      let E := fresh "E" in
      line_loop_induction lines players IH; intros ?; simpl; [done|];
      match goal with
      | |- context [parse_line ?line] =>
          destruct (parse_line line) eqn:E; [|by apply IH];
          apply IH, Forall_app; split; [done|];
          constructor; [|done]; by eapply line_flag
      end
  end.

Lemma hh_loop_flag lines players :
  Forall (flagged_by HockeyHandbook) players →
  Forall (flagged_by HockeyHandbook) (hh_loop lines players).
Proof. solve_loop_flag hh_line hh_line_flag. Qed.

Lemma espn_loop_flag lines players :
  Forall (flagged_by ESPN) players → Forall (flagged_by ESPN) (espn_loop lines players).
Proof. solve_loop_flag espn_line espn_line_flag. Qed.

Lemma nhl_loop_flag lines players :
  Forall (flagged_by NHL) players → Forall (flagged_by NHL) (nhl_loop lines players).
Proof. solve_loop_flag nhl_line nhl_line_flag. Qed.

Lemma yahoo_loop_flag lines rank players :
  Forall (flagged_by Yahoo) players → Forall (flagged_by Yahoo) (yahoo_loop lines rank players).
Proof.
  revert rank players.
  induction lines as [|line lines IH]; intros rank players Hp; simpl; [done|].
  repeat case_match; try by apply IH.
  apply IH, Forall_app. split; [done|]. by constructor.
Qed.

Lemma fantasyprops_loop_flag filepath rows players out :
  Forall (flagged_by FantasyPros) players →
  fantasyprops_loop filepath rows players = inr out →
  Forall (flagged_by FantasyPros) out.
Proof.
  revert players. induction rows as [|row rows IH]; intros players Hp; simpl.
  - by intros [= <-].
  - destruct (fantasyprops_row filepath row) as [e|p] eqn:E; simpl; [done|].
    apply IH, Forall_app. split; [done|]. constructor; [|done].
    by eapply fantasyprops_row_flag.
Qed.

(** Every parser flags its records by the rule of its source. *)
Lemma parsers_flag :
  (∀ filepath rows out, parse_fantasyprops_csv filepath rows = inr out →
                        Forall (flagged_by FantasyPros) out) ∧
  (∀ lines, Forall (flagged_by ESPN) (parse_espn_text lines)) ∧
  (∀ lines, Forall (flagged_by Yahoo) (parse_yahoo_text lines)) ∧
  (∀ lines, Forall (flagged_by NHL) (parse_nhl_text lines)) ∧
  (∀ lines, Forall (flagged_by HockeyHandbook) (parse_hh_text lines)).
Proof.
  split_and!.
  - intros filepath rows out. by apply fantasyprops_loop_flag.
  - intros lines. by apply espn_loop_flag.
  - intros lines. by apply yahoo_loop_flag.
  - intros lines. by apply nhl_loop_flag.
  - intros lines. by apply hh_loop_flag.
Qed.




(** ** Positional-block parser *)

Lemma fold_insert_lookup_Some (l : list (string * string)) (m : gmap string string) k c :
  fold_left (fun m kv => <[kv.1 := kv.2]> m) l m !! k = Some c →
  (k, c) ∈ l ∨ m !! k = Some c.
Proof.
  revert m. induction l as [|[k0 v0] l IH]; intros m Hk; simpl in *; [by right|].
  apply IH in Hk as [Hin|Hm]; [left; by apply list_elem_of_further|].
  destruct (decide (k0 = k)) as [->|Hne].
  - rewrite lookup_insert_eq in Hm. injection Hm as ->. left. apply list_elem_of_here.
  - rewrite lookup_insert_ne in Hm by done. by right.
Qed.

Lemma normalize_team_truthy (t : string) :
  truthy_str t = true → truthy_str (normalize_team t) = true.
Proof.
  intros Ht. unfold normalize_team, team_abbreviations.
  destruct (fold_left _ team_table ∅ !! t) as [c|] eqn:E; simpl; [|done].
  apply fold_insert_lookup_Some in E as [Hin|E]; [|by rewrite lookup_empty in E].
  assert (Hall : Forall (fun kv : string * string => truthy_str kv.2 = true) team_table)
    by (apply (bool_decide_unpack _); vm_compute; exact I).
  by apply (proj1 (Forall_forall _ _) Hall _ Hin).
Qed.

Lemma re_team_pos_truthy l t p :
  re_team_pos l = Some (t, p) → truthy_str t = true ∧ truthy_str p = true.
Proof.
  unfold re_team_pos. intros Hm.
  destruct (PyStr.span PyStr.is_upper l) as [up rest].
  repeat case_match; simplify_eq.
  split; [|reflexivity].
  destruct up as [|c1 [|c2 up]]; [done|done|reflexivity].
Qed.

Lemma yahoo_lookahead_truthy window t p :
  yahoo_lookahead window = Some (t, p) → truthy_str t = true ∧ truthy_str p = true.
Proof.
  induction window as [|next window IH]; simpl; [done|].
  destruct (re_team_pos (PyStr.chars (PyStr.strip next))) as [[t0 p0]|] eqn:E; [|done].
  intros [= <- <-]. apply re_team_pos_truthy in E as [Ht Hp].
  split; [by apply normalize_team_truthy|done].
Qed.

(** One turn of the loop: an emitted line appends one record that carries
    the counter and advances it; any other line leaves both as they are. *)
Lemma yahoo_loop_emit line rest rank players :
  yahoo_emits line rest = true →
  ∃ r, Raw.overall_rank r = rank ∧
       (Raw.multi_position r = true ↔ Raw.position r ∈ ["C"; "LW"; "RW"]) ∧
       yahoo_loop (line :: rest) rank players = yahoo_loop rest (rank + 1) (players ++ [r]).
Proof.
  unfold yahoo_emits. intros [Hc Hl]%andb_true_iff.
  apply bool_decide_eq_true in Hl as [[t p] Hl].
  destruct (yahoo_lookahead_truthy _ _ _ Hl) as [Ht Hp].
  cbn [yahoo_loop]. rewrite Hc, Hl, Ht, Hp. cbn [andb].
  eexists. split_and!; [|  |reflexivity]; [reflexivity|].
  cbn [Raw.multi_position Raw.position]. unfold yahoo_multi.
  apply bool_decide_eq_true.
Qed.

Lemma yahoo_loop_skip line rest rank players :
  yahoo_emits line rest = false →
  yahoo_loop (line :: rest) rank players = yahoo_loop rest rank players.
Proof.
  unfold yahoo_emits. intros He. cbn [yahoo_loop].
  destruct (yahoo_candidate (PyStr.strip line)); [|done].
  destruct (yahoo_lookahead (take 4 rest)) as [[t p]|]; [|done].
  exfalso. cbn [andb] in He. apply bool_decide_eq_false in He.
  apply He. by eexists.
Qed.

Lemma yahoo_loop_spec lines rank players :
  ∃ new, yahoo_loop lines rank players = players ++ new ∧
    length new = yahoo_hits lines ∧
    Raw.overall_rank <$> new = seqZ rank (Z.of_nat (length new)) ∧
    Forall (fun r => Raw.multi_position r = true ↔ Raw.position r ∈ ["C"; "LW"; "RW"]) new.
Proof.
  revert rank players. induction lines as [|line rest IH]; intros rank players.
  - exists []. by rewrite app_nil_r.
  - cbn [yahoo_hits]. destruct (yahoo_emits line rest) eqn:He.
    + destruct (yahoo_loop_emit line rest rank players He) as (r & Hr & Hm & ->).
      destruct (IH (rank + 1) (players ++ [r])) as (new & -> & Hlen & Hranks & Hflags).
      exists (r :: new). split_and!.
      * by rewrite <- app_assoc.
      * simpl. by rewrite Hlen.
      * csimpl. rewrite Hranks, Hr. rewrite (seqZ_cons rank) by lia.
        do 2 f_equal; lia.
      * by constructor.
    + rewrite (yahoo_loop_skip line rest rank players He).
      destruct (IH rank players) as (new & -> & Hlen & Hranks & Hflags).
      by exists new.
Qed.

(** A line of free text is a candidate name for this parser: followed by
    a team and position pair it is emitted as a player. *)
Example yahoo_free_text_is_a_name :
  parse_yahoo_text ["not a valid ranking row" +:+ nl; "Connor McDavid" +:+ nl; "EDM - C" +:+ nl]
  = [Raw.mk "not a valid ranking row" "EDM" "C" 1 1 true;
     Raw.mk "Connor McDavid" "EDM" "C" 2 2 true].
Proof. vm_compute. reflexivity. Qed.

(** C9. The records of the positional-block parser carry the overall ranks
    1, 2, ..., k in the order they are emitted; there are as many records
    as candidate name lines with a team and position pair in the four
    lines that follow; a candidate without such a pair passes the list and
    the counter on as they are; and a record is flagged exactly when its
    position is C, LW or RW. *)
Theorem yahoo_running_counter (lines : list string) :
  Raw.overall_rank <$> parse_yahoo_text lines
  = seqZ 1 (Z.of_nat (length (parse_yahoo_text lines))) ∧
  length (parse_yahoo_text lines) = yahoo_hits lines ∧
  (∀ line rest rank players,
     yahoo_candidate (PyStr.strip line) = true →
     yahoo_lookahead (take 4 rest) = None →
     yahoo_loop (line :: rest) rank players = yahoo_loop rest rank players) ∧
  Forall (fun r => Raw.multi_position r = true ↔ Raw.position r ∈ ["C"; "LW"; "RW"])
    (parse_yahoo_text lines).
Proof.
  unfold parse_yahoo_text.
  destruct (yahoo_loop_spec lines 1 []) as (new & -> & Hlen & Hranks & Hflags).
  rewrite app_nil_l. split_and!; [done|done| |done].
  intros line rest rank players Hc Hl. apply yahoo_loop_skip.
  unfold yahoo_emits. by rewrite Hc, Hl.
Qed.

Lemma yahoo_running_counter_witness :
  yahoo_candidate (PyStr.strip ("Nobody" +:+ nl)) = true ∧
  yahoo_lookahead (take 4 ["1.5" +:+ nl; "12" +:+ nl]) = None ∧
  yahoo_loop ["Nobody" +:+ nl; "1.5" +:+ nl; "12" +:+ nl] 4 []
  = yahoo_loop ["1.5" +:+ nl; "12" +:+ nl] 4 [].
Proof.
  split; [reflexivity|]. split; [reflexivity|].
  apply (proj1 (proj2 (proj2 (yahoo_running_counter [])))); reflexivity.
Defined.

(** ** Malformed lines *)

(** The three line parsers keep, in order, the records of the lines that
    match, whatever stands between them. *)
Ltac solve_loop_omap parse_line :=
  match goal with
  | |- _ ?lines ?players = _ =>
      let IH := fresh "IH" in
      line_loop_induction lines players IH; csimpl;
      [by rewrite app_nil_r|];
      match goal with
      | |- context [parse_line ?line] =>
          destruct (parse_line line); rewrite IH; [by rewrite <- app_assoc|done]
      end
  end.

Lemma hh_loop_omap lines players : hh_loop lines players = players ++ omap hh_line lines.
Proof. solve_loop_omap hh_line. Qed.

Lemma espn_loop_omap lines players :
  espn_loop lines players = players ++ omap espn_line lines.
Proof. solve_loop_omap espn_line. Qed.

Lemma nhl_loop_omap lines players :
  nhl_loop lines players = players ++ omap nhl_line lines.
Proof. solve_loop_omap nhl_line. Qed.

(** A line that does not match is skipped by the delimited-record parser
    and by the two enumerated-line parsers: the records of the other lines
    come out as if the line were not there. *)
Lemma line_parsers_skip (before after : list string) (line : string) :
  (hh_line line = None →
   parse_hh_text (before ++ line :: after) = parse_hh_text (before ++ after)) ∧
  (espn_line line = None →
   parse_espn_text (before ++ line :: after) = parse_espn_text (before ++ after)) ∧
  (nhl_line line = None →
   parse_nhl_text (before ++ line :: after) = parse_nhl_text (before ++ after)).
Proof.
  unfold parse_hh_text, parse_espn_text, parse_nhl_text.
  rewrite !hh_loop_omap, !espn_loop_omap, !nhl_loop_omap, !omap_app. csimpl.
  split_and!; by intros ->.
Qed.

Example malformed_line_dropped :
  hh_line "not a valid ranking row" = None ∧
  espn_line "not a valid ranking row" = None ∧
  nhl_line "not a valid ranking row" = None.
Proof. vm_compute. repeat split; reflexivity. Qed.

(** The tabular parser stops at the first row that raises, and returns
    nothing of what it had read. *)
Lemma fantasyprops_loop_raises filepath (before after : list csv_row) row players e :
  fantasyprops_row filepath row = inl e →
  (∃ e', fantasyprops_loop filepath (before ++ row :: after) players = inl e').
Proof.
  intros Hrow. revert players. induction before as [|r before IH]; intros players; simpl.
  - rewrite Hrow. by exists e.
  - destruct (fantasyprops_row filepath r) as [e0|p]; simpl; [by exists e0|]. apply IH.
Qed.

(** C2, at the failing input. A row whose rank is not a number makes the
    tabular parser raise [ValueError]: the records of the two valid rows are
    lost, where the claim has the row skipped and the valid rows returned.
    The delimited-record parser, on the same three rows, skips the
    malformed one and returns the records of the two others. *)
Theorem csv_parser_aborts_on_malformed_row :
  parse_fantasyprops_csv "datasets/FantasyPros_C_2025.csv" csv_noisy_rows
  = inl ValueError ∧
  parse_fantasyprops_csv "datasets/FantasyPros_C_2025.csv" csv_good_rows
  = inr [Raw.mk "Nathan MacKinnon" "COL" "C" 1 1 false;
         Raw.mk "Sidney Crosby" "PIT" "C" 3 3 false] ∧
  parse_hh_text hh_noisy_lines
  = [Raw.mk "Nathan MacKinnon" "COL" "C" 1 1 false;
     Raw.mk "Sidney Crosby" "PIT" "C" 3 3 false] ∧
  parse_hh_text hh_good_lines = parse_hh_text hh_noisy_lines.
Proof. vm_compute. repeat split; reflexivity. Qed.

(** * Further properties of the code *)

(** ** Team codes *)

(** X1. A normalized team code is a fixed point of the normalizer: the
    codes the table gives are keys that map to themselves. *)
Theorem normalize_team_idempotent (tok : string) :
  normalize_team (normalize_team tok) = normalize_team tok.
Proof.
  unfold normalize_team at 2 3. unfold team_abbreviations.
  destruct (fold_left _ team_table ∅ !! tok) as [c|] eqn:E; simpl.
  - apply fold_insert_lookup_Some in E as [Hin|E]; [|by rewrite lookup_empty in E].
    unfold team_table in Hin.
    repeat (apply elem_of_cons in Hin as [[= -> ->]|Hin]; [vm_compute; reflexivity|]).
    by apply elem_of_nil in Hin.
  - unfold normalize_team, team_abbreviations. by rewrite E.
Qed.

(** ** Identity Resolver *)

Lemma group_fold_get (l : list Raw.t) (d : list (string * list Raw.t)) (n : string) :
  dd_get n (fold_left (fun d p => dd_append (Raw.name p) p d) l d)
  = dd_get n d ++ filter (fun p => Raw.name p = n) l.
Proof.
  revert d. induction l as [|p l IH]; intros d; simpl.
  - by rewrite app_nil_r.
  - rewrite IH, dd_get_append.
    destruct (str_eqb n (Raw.name p)) eqn:E.
    + apply str_eqb_eq in E. rewrite filter_cons_True by done.
      by rewrite <- app_assoc.
    + apply str_eqb_neq in E. by rewrite filter_cons_False by (intros ?; done).
Qed.

(** X2. The groups are the name classes of the pool: each name of the pool
    is the key of one group, and the group of a name holds the records of
    that name, all of them, in the order of the pool. *)
Theorem group_by_name_partition (pool : list Raw.t) (n : string) (g : list Raw.t) :
  NoDup (group_by_name pool).*1 ∧
  ((n, g) ∈ group_by_name pool ↔
   g = filter (fun p => Raw.name p = n) pool ∧ g ≠ []).
Proof.
  destruct (group_fold_keys pool []) as (Hnd & Hkeys & Hne).
  assert (Hnd' : NoDup (group_by_name pool).*1) by (apply Hnd; constructor).
  split; [done|]. split.
  - intros Hin. split; [|by eapply group_by_name_nonempty].
    apply (dd_get_elem _ _ _ Hnd') in Hin. unfold group_by_name in Hin.
    by rewrite group_fold_get in Hin.
  - intros [-> Hg].
    assert (Hkey : n ∈ (group_by_name pool).*1).
    { apply Hkeys. right.
      destruct (filter (fun p => Raw.name p = n) pool) as [|p g'] eqn:E; [done|].
      assert (Hp : p ∈ filter (fun p => Raw.name p = n) pool)
        by (rewrite E; apply list_elem_of_here).
      apply list_elem_of_filter in Hp as [Hn Hp].
      apply list_elem_of_fmap. by exists p. }
    apply list_elem_of_fmap in Hkey as ([n' g'] & -> & Hin). simpl.
    assert (Hg' := Hin). apply (dd_get_elem _ _ _ Hnd') in Hg'.
    unfold group_by_name in Hg'. rewrite group_fold_get in Hg'. simpl in Hg'.
    by rewrite Hg'.
Qed.

(** ** Position-Rank Calculator, continued *)

Lemma StronglySorted_lookup_lt {A} (R : A -> A -> Prop) (l : list A) i j x y :
  StronglySorted R l → (i < j)%nat → l !! i = Some x → l !! j = Some y → R x y.
Proof.
  intros Hs. revert i j. induction Hs as [|z l Hs IH Hz]; intros i j Hij Hi Hj; [done|].
  destruct j as [|j]; [lia|]. simpl in Hj. destruct i as [|i]; simpl in Hi.
  - injection Hi as ->. eapply Forall_forall in Hz; [done|]. by eapply list_elem_of_lookup_2.
  - apply (IH i j); [lia|done|done].
Qed.

(** The result of the ranking depends on the bucket keys and the sort keys
    of the store alone. *)
Section BucketExt.
Context {A K : Type} `{Inhabited A}.
Context (bucket_key : A -> string) (ltb : K -> K -> bool) (sort_key : A -> K).
Context (set_rank : Z -> A -> A).
Hypothesis set_rank_sort_key : ∀ i a, sort_key (set_rank i a) = sort_key a.

Lemma sorted_partition_ext (store store' : list A) (p : string) :
  Forall2 (fun a b => bucket_key a = bucket_key b ∧ sort_key a = sort_key b) store store' →
  sorted_partition bucket_key ltb sort_key store p
  = sorted_partition bucket_key ltb sort_key store' p.
Proof.
  intros Hrel. unfold sorted_partition.
  rewrite (partition_refs_ext bucket_key p 0 store store')
    by (eapply Forall2_impl; [exact Hrel|]; by intros ?? [? _]).
  apply py_sort_ext. intros r Hr.
  apply partition_refs_elem in Hr as (_ & b & Hb & _). rewrite Nat.sub_0_r in Hb.
  destruct (Forall2_lookup_r _ _ _ _ _ Hrel Hb) as (a & Ha & _ & Hkey).
  by rewrite (list_lookup_total_correct _ _ _ Ha), (list_lookup_total_correct _ _ _ Hb).
Qed.

Lemma rank_within_buckets_ext (store store' : list A) :
  Forall2 (fun a b => bucket_key a = bucket_key b ∧ sort_key a = sort_key b ∧
                      ∀ i, set_rank i a = set_rank i b) store store' →
  rank_within_buckets bucket_key ltb sort_key set_rank store
  = rank_within_buckets bucket_key ltb sort_key set_rank store'.
Proof.
  intros Hrel. apply list_eq. intros k.
  assert (Hrel' : Forall2 (fun a b => bucket_key a = bucket_key b ∧ sort_key a = sort_key b)
                    store store')
    by (eapply Forall2_impl; [exact Hrel|]; by intros ?? (? & ? & _)).
  destruct (store !! k) as [a|] eqn:Ha.
  - destruct (Forall2_lookup_l _ _ _ _ _ Hrel Ha) as (b & Hb & Hbk & Hsk & Hset).
    destruct (rank_within_buckets_lookup bucket_key ltb sort_key set_rank
                set_rank_sort_key store k a Ha) as (i & Hi & ->).
    destruct (rank_within_buckets_lookup bucket_key ltb sort_key set_rank
                set_rank_sort_key store' k b Hb) as (j & Hj & ->).
    rewrite <- Hbk, <- (sorted_partition_ext store store' _ Hrel') in Hj.
    assert (i = j) as ->.
    { eapply NoDup_lookup; [|exact Hi|exact Hj].
      apply py_sort_NoDup, partition_refs_NoDup. }
    by rewrite Hset.
  - apply lookup_ge_None in Ha.
    rewrite !(proj2 (lookup_ge_None _ _)); [done| |].
    + rewrite rank_within_buckets_length, <- (Forall2_length _ _ _ Hrel). lia.
    + rewrite rank_within_buckets_length. lia.
Qed.
End BucketExt.

(** X3. The position ranks the parsers put in the records have no part in
    the result: two pools that differ in that field alone are relabelled to
    the same pool. *)
Theorem calculate_position_ranks_ignores_placeholder (pool pool' : list Raw.t) :
  Forall2 (fun a b => Raw.set_position_rank 0 a = Raw.set_position_rank 0 b) pool pool' →
  calculate_position_ranks pool = calculate_position_ranks pool'.
Proof.
  intros Hrel. apply rank_within_buckets_ext; [done|].
  eapply Forall2_impl; [exact Hrel|].
  intros [] [] [=]. simpl. split_and!; [done|done|]. intros i.
  unfold Raw.set_position_rank. simpl. congruence.
Qed.

Lemma calculate_position_ranks_ignores_placeholder_witness :
  calculate_position_ranks sample_pool
  = calculate_position_ranks (Raw.set_position_rank 40 <$> sample_pool).
Proof.
  apply (calculate_position_ranks_ignores_placeholder sample_pool
           (Raw.set_position_rank 40 <$> sample_pool)).
  repeat constructor.
Defined.

(** X4. Ranking the positions twice changes nothing more. *)
Theorem calculate_position_ranks_idempotent (pool : list Raw.t) :
  calculate_position_ranks (calculate_position_ranks pool) = calculate_position_ranks pool.
Proof.
  apply rank_within_buckets_ext; [done|].
  apply Forall2_same_length_lookup_2; [apply rank_within_buckets_length|].
  intros k q p Hq Hp.
  destruct (rank_within_buckets_lookup Raw.position Z.ltb Raw.overall_rank
              Raw.set_position_rank (fun _ _ => eq_refl) pool k p Hp) as (i & _ & Hout).
  unfold calculate_position_ranks in Hq. rewrite Hout in Hq. injection Hq as <-.
  by split_and!.
Qed.

(** X5. After the calculator, the position ranks of the records of any one
    position are 1, 2, ..., M in some order, M the number of those
    records. *)
Theorem calculate_position_ranks_dense (pool : list Raw.t) (pos : string) :
  Raw.position_rank <$> filter (fun p => Raw.position p = pos) (calculate_position_ranks pool)
  ≡ₚ seqZ 1 (Z.of_nat (length
       (filter (fun p => Raw.position p = pos) (calculate_position_ranks pool)))).
Proof.
  pose proof (rank_within_buckets_partition Raw.position Z.ltb Raw.overall_rank
                Raw.set_position_rank (fun p => Some (Raw.position_rank p))
                (fun _ _ => eq_refl) (fun _ _ => eq_refl) (fun _ _ => eq_refl) pool pos)
    as Hperm.
  fold (calculate_position_ranks pool) in Hperm.
  apply (fmap_Permutation (default 0)) in Hperm.
  rewrite <- !list_fmap_compose in Hperm.
  rewrite (list_fmap_ext (default 0 ∘ Some) id (seqZ _ _)) in Hperm by done.
  by rewrite list_fmap_id in Hperm.
Qed.

(** X6. Within a position the position rank follows the overall rank: of
    two records of one position, the one with the smaller overall rank, or
    with the same overall rank and met first, gets the smaller position
    rank. *)
Theorem calculate_position_ranks_monotone (pool : list Raw.t) (j k : nat)
    (pj pk qj qk : Raw.t) :
  pool !! j = Some pj → pool !! k = Some pk →
  Raw.position pj = Raw.position pk →
  (Raw.overall_rank pj < Raw.overall_rank pk ∨
   (Raw.overall_rank pj = Raw.overall_rank pk ∧ (j < k)%nat)) →
  calculate_position_ranks pool !! j = Some qj →
  calculate_position_ranks pool !! k = Some qk →
  Raw.position_rank qj < Raw.position_rank qk.
Proof.
  intros Hj Hk Hpos Hlt Hqj Hqk.
  destruct (rank_within_buckets_lookup Raw.position Z.ltb Raw.overall_rank
              Raw.set_position_rank (fun _ _ => eq_refl) pool j pj Hj) as (ij & Hij & Houtj).
  destruct (rank_within_buckets_lookup Raw.position Z.ltb Raw.overall_rank
              Raw.set_position_rank (fun _ _ => eq_refl) pool k pk Hk) as (ik & Hik & Houtk).
  unfold calculate_position_ranks in Hqj, Hqk.
  rewrite Houtj in Hqj. rewrite Houtk in Hqk.
  injection Hqj as <-. injection Hqk as <-. simpl.
  rewrite <- Hpos in Hik.
  destruct (sorted_partition_is_sorted pool (Raw.position pj)) as (Hnd & _ & Hs).
  assert (Hbefore : ranked_before pool j k).
  { unfold ranked_before.
    by rewrite (list_lookup_total_correct _ _ _ Hj), (list_lookup_total_correct _ _ _ Hk). }
  destruct (Nat.lt_trichotomy ij ik) as [?|[->|Hgt]]; [lia| |].
  - rewrite Hij in Hik. injection Hik as ->.
    unfold ranked_before in Hbefore. simpl in Hbefore. lia.
  - pose proof (StronglySorted_lookup_lt _ _ _ _ _ _ Hs Hgt Hik Hij) as Hkj.
    unfold ranked_before in Hbefore, Hkj. simpl in *. lia.
Qed.

Lemma calculate_position_ranks_monotone_witness :
  Raw.position_rank (Raw.mk "Connor McDavid" "EDM" "C" 1 1 false)
  < Raw.position_rank (Raw.mk "Leon Draisaitl" "EDM" "C" 3 2 false).
Proof.
  apply (calculate_position_ranks_monotone sample_pool 2 0
           (Raw.mk "Connor McDavid" "EDM" "C" 1 1 false)
           (Raw.mk "Leon Draisaitl" "EDM" "C" 3 3 false));
    [reflexivity|reflexivity|reflexivity|left; simpl; lia|reflexivity|reflexivity].
Defined.

(** ** Consensus Aggregator, continued *)

(** X7. The consensus rank of a group lies between the smallest and the
    greatest rank of its members, the members without a rank set aside,
    when these are positive and below [2 ** 53]: the two roundings of the
    float arithmetic do not leave the interval. When the sources agree on a
    rank, that rank is the consensus. *)
Theorem float_rank_between (values : list Z) (lo hi : Z) :
  filter (fun z => z ≠ 0) values ≠ [] →
  Forall (fun z => lo <= z <= hi) (filter (fun z => z ≠ 0) values) →
  0 < lo → hi < 2 ^ 53 →
  ∃ r, float_rank values = Some r ∧ (inject_Z lo <= r <= inject_Z hi)%Q.
Proof.
  intros Hne Hall Hlo0 Hhi53. unfold float_rank. rewrite filter_truthy_int.
  destruct (filter (fun z => z ≠ 0) values) as [|r valid] eqn:E; [done|].
  destruct (mean_between (r :: valid) lo hi) as [Hl Hh]; [done|done|].
  rewrite <- true_div_mean in Hl, Hh.
  destruct (true_div_between _ _ lo hi Hlo0 Hhi53 Hl Hh) as (x & Hx & _ & Hxl & Hxh).
  unfold float_average. rewrite Hx. eexists. split; [done|].
  unfold PyFloat.round1.
  destruct (py_round1_between x lo hi Hxl Hxh) as [Hrl Hrh].
  by apply nearest_between.
Qed.

Lemma float_rank_between_witness :
  ∃ r, float_rank [5; 0; 8] = Some r ∧ (inject_Z 5 <= r <= inject_Z 8)%Q.
Proof.
  apply (float_rank_between [5; 0; 8] 5 8).
  - vm_compute. discriminate.
  - vm_compute. repeat constructor; discriminate.
  - lia.
  - vm_compute. reflexivity.
Defined.
















(** ** Source parsers, continued *)

Lemma chars_str (l : list ascii) : PyStr.chars (PyStr.str l) = l.
Proof. apply list_ascii_of_string_of_list_ascii. Qed.

Lemma str_chars (s : string) : PyStr.str (PyStr.chars s) = s.
Proof. apply string_of_list_ascii_of_string. Qed.

Lemma span_fst_Forall (p : ascii -> bool) (l : list ascii) :
  Forall (fun c => p c = true) (PyStr.span p l).1.
Proof.
  induction l as [|c l IH]; simpl; [constructor|].
  destruct (p c) eqn:E; [|constructor].
  destruct (PyStr.span p l) as [a b]. simpl in *. by constructor.
Qed.

Lemma is_digit_code (c : ascii) :
  PyStr.is_digit c = true → (48 <= PyStr.code c <= 57)%N.
Proof.
  unfold PyStr.is_digit. intros [H1 H2]%andb_true_iff.
  apply N.leb_le in H1, H2. lia.
Qed.

Lemma digits_val_fold (l : list ascii) (acc : Z) :
  Forall (fun c => PyStr.is_digit c = true) l → 0 <= acc →
  0 <= fold_left (fun acc c => 10 * acc + PyStr.digit_val c) l acc.
Proof.
  intros Hl. revert acc. induction Hl as [|c l Hc _ IH]; intros acc Hacc; simpl; [done|].
  apply IH. apply is_digit_code in Hc. unfold PyStr.digit_val. lia.
Qed.

Lemma digits_val_nonneg (l : list ascii) :
  Forall (fun c => PyStr.is_digit c = true) l → 0 <= PyStr.digits_val l.
Proof. intros Hl. by apply digits_val_fold. Qed.

Lemma int_body_digits (l acc : list ascii) (prev : bool) :
  Forall (fun c => PyStr.is_digit c = true) l → l ≠ [] ∨ prev = true →
  PyStr.int_body prev acc l = Some (rev acc ++ l).
Proof.
  intros Hl. revert acc prev. induction Hl as [|c l Hc _ IH]; intros acc prev Hne; simpl.
  - destruct Hne as [Hne|Hne]; [done|]. rewrite Hne. by rewrite app_nil_r.
  - rewrite Hc, IH by (by right). simpl. by rewrite <- app_assoc.
Qed.

Lemma is_digit_not_int_space (c : ascii) :
  PyStr.is_digit c = true → PyStr.is_int_space c = false.
Proof.
  intros Hd%is_digit_code. unfold PyStr.is_int_space.
  destruct (N.leb_spec 9 (PyStr.code c)), (N.leb_spec (PyStr.code c) 13),
    (N.eqb_spec (PyStr.code c) 32); simpl; lia.
Qed.

Lemma span_int_space_digit (c : ascii) (l : list ascii) :
  PyStr.is_digit c = true → (PyStr.span PyStr.is_int_space (c :: l)).2 = c :: l.
Proof. intros Hc. simpl. by rewrite (is_digit_not_int_space c Hc). Qed.

(** A string of digits, no more of them than the limit, is converted to
    the number it writes; a longer one is refused. *)
Lemma int_isdigit (s : string) :
  PyStr.isdigit s = true →
  PyStr.int s
  = if (PyStr.int_max_str_digits <? length (PyStr.chars s))%nat then None
    else Some (PyStr.digits_val (PyStr.chars s)).
Proof.
  unfold PyStr.isdigit, PyStr.int.
  destruct (PyStr.chars s) as [|c l] eqn:E; [done|]. intros Hall.
  assert (Hd : Forall (fun c => PyStr.is_digit c = true) (c :: l)).
  { apply Forall_forall. intros x Hx. apply list_elem_of_In in Hx.
    by apply (proj1 (forallb_forall _ _) Hall). }
  assert (Hc : PyStr.is_digit c = true) by (by apply Forall_cons in Hd as [? _]).
  rewrite (span_int_space_digit c l Hc).
  assert (Hr : rev (PyStr.span PyStr.is_int_space (rev (c :: l))).2 = c :: l).
  { destruct (rev (c :: l)) as [|c' l'] eqn:Er.
    { apply (f_equal (@rev ascii)) in Er. rewrite rev_involutive in Er. done. }
    assert (Hc' : PyStr.is_digit c' = true).
    { eapply Forall_forall in Hd; [exact Hd|].
      apply list_elem_of_In, in_rev. rewrite Er. by left. }
    rewrite (span_int_space_digit c' l' Hc'), <- Er. apply rev_involutive. }
  rewrite Hr. pose proof (is_digit_code c Hc) as Hcode.
  destruct (N.eqb_spec (PyStr.code c) 45); [lia|].
  destruct (N.eqb_spec (PyStr.code c) 43); [lia|].
  by rewrite (int_body_digits (c :: l) [] false Hd) by (by left).
Qed.

Lemma hh_line_inv (raw : string) (r : Raw.t) :
  hh_line raw = Some r ↔
  ∃ p0 p1 p2 p3 rest,
    PyStr.split_on "009"%char (PyStr.strip raw) = p0 :: p1 :: p2 :: p3 :: rest ∧
    PyStr.isdigit p0 = true ∧
    (length (PyStr.chars p0) ≤ PyStr.int_max_str_digits)%nat ∧
    r = Raw.mk (normalize_name p1) (normalize_team p3) p2
          (PyStr.digits_val (PyStr.chars p0)) (PyStr.digits_val (PyStr.chars p0))
          (str_eqb p2 "F").
Proof.
  unfold hh_line. split.
  - intros Hr.
    destruct (negb (truthy_str (PyStr.strip raw))); [done|].
    destruct (PyStr.split_on "009"%char (PyStr.strip raw))
      as [|p0 [|p1 [|p2 [|p3 rest]]]]; try done.
    destruct (PyStr.isdigit p0) eqn:Hd; [|done].
    rewrite (int_isdigit p0 Hd) in Hr.
    destruct (Nat.ltb_spec PyStr.int_max_str_digits (length (PyStr.chars p0)));
      [done|].
    injection Hr as <-. by exists p0, p1, p2, p3, rest.
  - intros (p0 & p1 & p2 & p3 & rest & Hsplit & Hd & Hlen & ->).
    destruct (truthy_str (PyStr.strip raw)) eqn:Ht; simpl.
    + rewrite Hsplit, Hd, (int_isdigit p0 Hd).
      destruct (Nat.ltb_spec PyStr.int_max_str_digits (length (PyStr.chars p0)));
        [lia|done].
    + unfold truthy_str in Ht. apply negb_false_iff, str_eqb_eq in Ht.
      rewrite Ht in Hsplit. done.
Qed.

Lemma re_rank_name_nonneg l z n a : re_rank_name l = Some (z, n, a) → 0 <= z.
Proof.
  unfold re_rank_name. intros Hm.
  pose proof (span_fst_Forall PyStr.is_digit l) as Hd.
  destruct (PyStr.span PyStr.is_digit l) as [ds rest]. simpl in Hd.
  repeat case_match; simplify_eq; by apply digits_val_nonneg.
Qed.

Lemma espn_line_ranks line r :
  espn_line line = Some r → 0 <= Raw.overall_rank r ∧ 0 <= Raw.position_rank r.
Proof.
  unfold espn_line, re_espn. intros Hr.
  destruct (negb (truthy_str (PyStr.strip line))); [done|].
  destruct (re_rank_name (PyStr.chars (PyStr.strip line))) as [[[z n] a]|] eqn:E; [|done].
  apply re_rank_name_nonneg in E.
  repeat case_match; simplify_eq. simpl. split; [done|].
  match goal with
  | H : PyStr.span PyStr.is_digit ?l = (?ds, _) |- 0 <= PyStr.digits_val ?ds =>
      pose proof (span_fst_Forall PyStr.is_digit l) as Hd; rewrite H in Hd;
      by apply digits_val_nonneg
  end.
Qed.

Lemma nhl_line_ranks line r :
  nhl_line line = Some r →
  0 <= Raw.overall_rank r ∧ Raw.position_rank r = Raw.overall_rank r.
Proof.
  unfold nhl_line, re_nhl. intros Hr.
  destruct (negb (truthy_str (PyStr.strip line))); [done|].
  destruct (re_rank_name (PyStr.chars (PyStr.strip line))) as [[[z n] a]|] eqn:E; [|done].
  apply re_rank_name_nonneg in E.
  repeat case_match; simplify_eq. done.
Qed.

Lemma hh_line_ranks line r :
  hh_line line = Some r →
  0 <= Raw.overall_rank r ∧ Raw.position_rank r = Raw.overall_rank r.
Proof.
  intros (p0 & p1 & p2 & p3 & rest & _ & Hd & _ & ->)%hh_line_inv. simpl.
  split; [|done]. apply digits_val_nonneg.
  unfold PyStr.isdigit in Hd. destruct (PyStr.chars p0) as [|c l]; [done|].
  apply Forall_forall. intros x Hx. apply list_elem_of_In in Hx.
  by apply (proj1 (forallb_forall _ _) Hd).
Qed.

Lemma hh_loop_ranks lines players :
  Forall (fun r => 0 <= Raw.overall_rank r ∧ Raw.position_rank r = Raw.overall_rank r)
    players →
  Forall (fun r => 0 <= Raw.overall_rank r ∧ Raw.position_rank r = Raw.overall_rank r)
    (hh_loop lines players).
Proof. solve_loop_flag hh_line hh_line_ranks. Qed.

Lemma nhl_loop_ranks lines players :
  Forall (fun r => 0 <= Raw.overall_rank r ∧ Raw.position_rank r = Raw.overall_rank r)
    players →
  Forall (fun r => 0 <= Raw.overall_rank r ∧ Raw.position_rank r = Raw.overall_rank r)
    (nhl_loop lines players).
Proof. solve_loop_flag nhl_line nhl_line_ranks. Qed.

Lemma espn_loop_ranks lines players :
  Forall (fun r => 0 <= Raw.overall_rank r ∧ 0 <= Raw.position_rank r) players →
  Forall (fun r => 0 <= Raw.overall_rank r ∧ 0 <= Raw.position_rank r)
    (espn_loop lines players).
Proof. solve_loop_flag espn_line espn_line_ranks. Qed.

(** X13. The three line parsers never give a negative rank, whatever the
    file holds; the delimited-record and NHL.com parsers seed the position
    rank with the overall rank, the ESPN parser reads it from the line. *)
Theorem line_parsers_ranks (lines : list string) :
  Forall (fun r => 0 <= Raw.overall_rank r ∧ Raw.position_rank r = Raw.overall_rank r)
    (parse_hh_text lines) ∧
  Forall (fun r => 0 <= Raw.overall_rank r ∧ Raw.position_rank r = Raw.overall_rank r)
    (parse_nhl_text lines) ∧
  Forall (fun r => 0 <= Raw.overall_rank r ∧ 0 <= Raw.position_rank r)
    (parse_espn_text lines).
Proof.
  split_and!; [by apply hh_loop_ranks|by apply nhl_loop_ranks|by apply espn_loop_ranks].
Qed.

Lemma omap_length_le {A B} (f : A -> option B) (l : list A) :
  (length (omap f l) ≤ length l)%nat.
Proof. induction l as [|x l IH]; csimpl; [done|]. destruct (f x); simpl; lia. Qed.

(** X14. The three line parsers read a file line by line: the records of
    two files put end to end are the records of the first followed by the
    records of the second, and no file gives more records than it has
    lines. *)
Theorem line_parsers_concat (lines1 lines2 : list string) :
  parse_hh_text (lines1 ++ lines2) = parse_hh_text lines1 ++ parse_hh_text lines2 ∧
  parse_espn_text (lines1 ++ lines2) = parse_espn_text lines1 ++ parse_espn_text lines2 ∧
  parse_nhl_text (lines1 ++ lines2) = parse_nhl_text lines1 ++ parse_nhl_text lines2 ∧
  (length (parse_hh_text lines1) ≤ length lines1)%nat ∧
  (length (parse_espn_text lines1) ≤ length lines1)%nat ∧
  (length (parse_nhl_text lines1) ≤ length lines1)%nat.
Proof.
  unfold parse_hh_text, parse_espn_text, parse_nhl_text.
  rewrite !hh_loop_omap, !espn_loop_omap, !nhl_loop_omap, !omap_app. simpl.
  split_and!; try done; apply omap_length_le.
Qed.

Lemma truthy_str_nonempty (s : string) : truthy_str s = true → s ≠ "".
Proof. unfold truthy_str. intros H%negb_true_iff. by apply str_eqb_neq. Qed.

Lemma yahoo_loop_records lines rank players :
  1 <= rank →
  Forall (fun r => Raw.team r ≠ "" ∧ Raw.position r ≠ "" ∧
                   1 <= Raw.overall_rank r ∧ Raw.position_rank r = Raw.overall_rank r)
    players →
  Forall (fun r => Raw.team r ≠ "" ∧ Raw.position r ≠ "" ∧
                   1 <= Raw.overall_rank r ∧ Raw.position_rank r = Raw.overall_rank r)
    (yahoo_loop lines rank players).
Proof.
  revert rank players.
  induction lines as [|line lines IH]; intros rank players Hrank Hp; [done|].
  cbn [yahoo_loop].
  destruct (yahoo_candidate (PyStr.strip line)); [|by apply IH].
  destruct (yahoo_lookahead (take 4 lines)) as [[t p]|] eqn:El; [|by apply IH].
  destruct (yahoo_lookahead_truthy _ _ _ El) as [Ht Hpos]. rewrite Ht, Hpos. cbn [andb].
  apply IH; [lia|]. apply Forall_app. split; [done|]. constructor; [|done]. simpl.
  split_and!; [by apply truthy_str_nonempty|by apply truthy_str_nonempty|done|done].
Qed.

Lemma yahoo_hits_le (lines : list string) : (yahoo_hits lines ≤ length lines)%nat.
Proof.
  induction lines as [|line lines IH]; simpl; [done|].
  destruct (yahoo_emits line lines); lia.
Qed.

(** X15. Every record of the positional-block parser has a team, a
    position and a rank of one or more, its position rank is seeded with
    its overall rank, and a file gives no more records than it has lines. *)
Theorem yahoo_records_complete (lines : list string) :
  Forall (fun r => Raw.team r ≠ "" ∧ Raw.position r ≠ "" ∧
                   1 <= Raw.overall_rank r ∧ Raw.position_rank r = Raw.overall_rank r)
    (parse_yahoo_text lines) ∧
  (length (parse_yahoo_text lines) ≤ length lines)%nat.
Proof.
  split; [by apply yahoo_loop_records|].
  unfold parse_yahoo_text.
  destruct (yahoo_loop_spec lines 1 []) as (new & -> & Hlen & _).
  rewrite app_nil_l, Hlen. apply yahoo_hits_le.
Qed.

Lemma fantasyprops_loop_iff filepath (rows : list csv_row) (acc out : list Raw.t) :
  fantasyprops_loop filepath rows acc = inr out ↔
  ∃ rs, out = acc ++ rs ∧
        Forall2 (fun row r => fantasyprops_row filepath row = inr r) rows rs.
Proof.
  revert acc. induction rows as [|row rows IH]; intros acc; simpl.
  - split.
    + intros [= <-]. exists []. by rewrite app_nil_r.
    + intros (rs & -> & Hrs). apply Forall2_nil_inv_l in Hrs as ->.
      by rewrite app_nil_r.
  - destruct (fantasyprops_row filepath row) as [e|r] eqn:E; simpl.
    + split; [done|]. intros (rs & _ & Hrs).
      apply Forall2_cons_inv_l in Hrs as (r & rs' & Hr & _ & _). congruence.
    + rewrite IH. split.
      * intros (rs & -> & Hrs). exists (r :: rs).
        split; [by rewrite <- app_assoc|by constructor].
      * intros (rs & -> & Hrs).
        apply Forall2_cons_inv_l in Hrs as (r' & rs' & Hr' & Hrs & ->).
        assert (r' = r) as -> by congruence.
        exists rs'. split; [by rewrite <- app_assoc|done].
Qed.

(** X16. The tabular parser returns records exactly when every row
    converts, and then one record for each row, in the order of the rows. *)
Theorem parse_fantasyprops_csv_rows filepath (rows : list csv_row) (out : list Raw.t) :
  parse_fantasyprops_csv filepath rows = inr out ↔
  Forall2 (fun row r => fantasyprops_row filepath row = inr r) rows out.
Proof.
  unfold parse_fantasyprops_csv. rewrite fantasyprops_loop_iff. split.
  - by intros (rs & -> & Hrs).
  - intros Hrs. by exists out.
Qed.

Lemma fantasyprops_row_record filepath row r :
  fantasyprops_row filepath row = inr r →
  Raw.position r = position_of_filename filepath ∧
  Raw.position_rank r = Raw.overall_rank r ∧
  Raw.multi_position r = str_eqb (position_of_filename filepath) "F".
Proof.
  unfold fantasyprops_row, bind, row_get, py_int, raise, ret. intros Hr.
  repeat case_match; simplify_eq; done.
Qed.

(** X17. The records of a FantasyPros file all have the position read
    from the name of the file, their position rank is seeded with their
    overall rank, and there is one of them for each row. *)
Theorem parse_fantasyprops_csv_records filepath (rows : list csv_row) (out : list Raw.t) :
  parse_fantasyprops_csv filepath rows = inr out →
  length out = length rows ∧
  Forall (fun r => Raw.position r = position_of_filename filepath ∧
                   Raw.position_rank r = Raw.overall_rank r ∧
                   Raw.multi_position r = str_eqb (position_of_filename filepath) "F") out.
Proof.
  unfold parse_fantasyprops_csv. intros (rs & -> & Hout)%fantasyprops_loop_iff.
  rewrite app_nil_l. split.
  - symmetry. by eapply Forall2_length.
  - induction Hout as [|row r rows out Hr _ IH]; constructor; [|done].
    by eapply fantasyprops_row_record.
Qed.

Lemma parse_fantasyprops_csv_records_witness :
  length [Raw.mk "Nathan MacKinnon" "COL" "C" 1 1 false;
          Raw.mk "Sidney Crosby" "PIT" "C" 3 3 false] = length csv_good_rows ∧
  Forall (fun r => Raw.position r = position_of_filename "datasets/FantasyPros_C_2025.csv" ∧
                   Raw.position_rank r = Raw.overall_rank r ∧
                   Raw.multi_position r
                   = str_eqb (position_of_filename "datasets/FantasyPros_C_2025.csv") "F")
    [Raw.mk "Nathan MacKinnon" "COL" "C" 1 1 false;
     Raw.mk "Sidney Crosby" "PIT" "C" 3 3 false].
Proof.
  apply (parse_fantasyprops_csv_records "datasets/FantasyPros_C_2025.csv" csv_good_rows).
  vm_compute. reflexivity.
Defined.

(** X18. The tabular parser raises the error of the first row that does
    not convert, whatever the rows before and after it hold, and no record
    of the file is returned. *)
Theorem parse_fantasyprops_csv_first_error filepath (before after : list csv_row)
    (row : csv_row) (e : py_error) :
  Forall (fun r => ∃ p, fantasyprops_row filepath r = inr p) before →
  fantasyprops_row filepath row = inl e →
  parse_fantasyprops_csv filepath (before ++ row :: after) = inl e.
Proof.
  intros Hbefore Hrow.
  unfold parse_fantasyprops_csv. generalize (@nil Raw.t).
  induction Hbefore as [|r before [p Hp] _ IH]; intros acc; simpl.
  - by rewrite Hrow.
  - rewrite Hp. simpl. apply IH.
Qed.

Lemma parse_fantasyprops_csv_first_error_witness :
  parse_fantasyprops_csv "datasets/FantasyPros_C_2025.csv"
    ([csv_row_of "1" "Nathan MacKinnon" "COL"] ++
     csv_row_of "n/a" "Connor McDavid" "EDM" :: [csv_row_of "3" "Sidney Crosby" "PIT"])
  = inl ValueError.
Proof.
  apply (parse_fantasyprops_csv_first_error "datasets/FantasyPros_C_2025.csv"
           [csv_row_of "1" "Nathan MacKinnon" "COL"] [csv_row_of "3" "Sidney Crosby" "PIT"]
           (csv_row_of "n/a" "Connor McDavid" "EDM") ValueError).
  - constructor; [|constructor]. eexists. vm_compute. reflexivity.
  - vm_compute. reflexivity.
Defined.

(** ** Names *)

Lemma split_ws_go_lstrip (l : list ascii) :
  PyStr.split_ws_go [] (PyStr.lstrip l) = PyStr.split_ws_go [] l.
Proof.
  induction l as [|c l IH]; simpl; [done|].
  destruct (PyStr.is_space c) eqn:E; [done|]. simpl. by rewrite E.
Qed.

Lemma split_ws_go_blanks (cur w : list ascii) :
  Forall (fun c => PyStr.is_space c = true) w →
  PyStr.split_ws_go cur w = PyStr.split_ws_go cur [].
Proof.
  intros Hw. revert cur. induction Hw as [|c w Hc _ IH]; intros cur; [done|].
  simpl. rewrite Hc. destruct cur; [apply IH|]. by rewrite IH.
Qed.

Lemma split_ws_go_trailing (cur l w : list ascii) :
  Forall (fun c => PyStr.is_space c = true) w →
  PyStr.split_ws_go cur (l ++ w) = PyStr.split_ws_go cur l.
Proof.
  intros Hw. revert cur. induction l as [|c l IH]; intros cur.
  - by apply split_ws_go_blanks.
  - simpl. destruct (PyStr.is_space c); [destruct cur|]; by rewrite ?IH.
Qed.

Lemma lstrip_blanks (l : list ascii) :
  ∃ w, Forall (fun c => PyStr.is_space c = true) w ∧ l = w ++ PyStr.lstrip l.
Proof.
  induction l as [|c l (w & Hw & IH)]; simpl.
  - by exists [].
  - destruct (PyStr.is_space c) eqn:E.
    + exists (c :: w). split; [by constructor|]. simpl. by rewrite <- IH.
    + by exists [].
Qed.

Lemma rstrip_blanks (l : list ascii) :
  ∃ w, Forall (fun c => PyStr.is_space c = true) w ∧ l = PyStr.rstrip l ++ w.
Proof.
  destruct (lstrip_blanks (rev l)) as (w & Hw & Heq).
  exists (rev w). split.
  - apply Forall_forall. intros c Hc. apply list_elem_of_In, in_rev in Hc.
    eapply Forall_forall in Hw; [exact Hw|]. by apply list_elem_of_In.
  - unfold PyStr.rstrip. rewrite <- rev_app_distr, <- Heq. symmetry. apply rev_involutive.
Qed.

(** Stripping a string does not change its words. *)
Lemma split_ws_strip (s : string) : PyStr.split_ws (PyStr.strip s) = PyStr.split_ws s.
Proof.
  unfold PyStr.split_ws, PyStr.strip. rewrite chars_str.
  destruct (rstrip_blanks (PyStr.lstrip (PyStr.chars s))) as (w & Hw & Heq).
  rewrite <- (split_ws_go_lstrip (PyStr.chars s)). rewrite Heq at 2.
  by rewrite split_ws_go_trailing.
Qed.

(** X19. The normalized name depends on the words of the name alone: two
    spellings that differ in the blanks around and between the words are
    given the same key. *)
Theorem normalize_name_words (s s' : string) :
  PyStr.split_ws s = PyStr.split_ws s' → normalize_name s = normalize_name s'.
Proof.
  intros Hw. unfold normalize_name. by rewrite !split_ws_strip, Hw.
Qed.

Lemma normalize_name_words_witness :
  normalize_name ("  Cale" +:+ tab +:+ " Makar " +:+ nl) = normalize_name "Cale Makar".
Proof.
  apply (normalize_name_words ("  Cale" +:+ tab +:+ " Makar " +:+ nl) "Cale Makar").
  vm_compute. reflexivity.
Defined.

(** ** Pipeline Driver *)

Lemma parse_all_iff (files : list ranking_file) (acc all : list Raw.t) :
  parse_all files acc = inr all ↔
  ∃ pools, Forall2 (fun f rs => parse_file f = inr rs) files pools ∧
           all = acc ++ concat pools.
Proof.
  revert acc. induction files as [|f files IH]; intros acc; simpl.
  - split.
    + intros [= <-]. exists []. by rewrite app_nil_r.
    + intros (pools & Hp & ->). apply Forall2_nil_inv_l in Hp as ->.
      simpl. by rewrite app_nil_r.
  - destruct (parse_file f) as [e|rs] eqn:E; simpl.
    + split; [done|]. intros (pools & Hp & _).
      apply Forall2_cons_inv_l in Hp as (rs & pools' & Hrs & _ & _). congruence.
    + rewrite IH. split.
      * intros (pools & Hp & ->). exists (rs :: pools).
        split; [by constructor|]. simpl. by rewrite <- app_assoc.
      * intros (pools & Hp & ->).
        apply Forall2_cons_inv_l in Hp as (rs' & pools' & Hrs & Hp & ->).
        assert (rs' = rs) as -> by congruence.
        exists pools'. split; [done|]. simpl. by rewrite <- app_assoc.
Qed.

Lemma parse_all_raises (files : list ranking_file) (acc : list Raw.t) (e : py_error) :
  parse_all files acc = inl e ↔
  ∃ before f after, files = before ++ f :: after ∧
    Forall (fun g => ∃ rs, parse_file g = inr rs) before ∧ parse_file f = inl e.
Proof.
  revert acc. induction files as [|f files IH]; intros acc; simpl.
  - split; [done|]. intros (before & g & after & Heq & _). by destruct before.
  - destruct (parse_file f) as [e'|rs] eqn:E; simpl.
    + split.
      * intros [= ->]. exists [], f, files. by split_and!.
      * intros (before & g & after & Heq & Hb & Hg).
        destruct before as [|b before]; simpl in Heq; injection Heq as <- ->.
        -- congruence.
        -- apply Forall_cons in Hb as [[rs Hrs] _]. congruence.
    + rewrite IH. split.
      * intros (before & g & after & -> & Hb & Hg).
        exists (f :: before), g, after. split_and!; [done| |done].
        constructor; [by exists rs|done].
      * intros (before & g & after & Heq & Hb & Hg).
        destruct before as [|b before]; simpl in Heq; injection Heq as <- ->.
        -- congruence.
        -- apply Forall_cons in Hb as [_ Hb]. by exists before, g, after.
Qed.

Lemma calculate_position_ranks_names (pool : list Raw.t) :
  Raw.name <$> calculate_position_ranks pool = Raw.name <$> pool.
Proof.
  apply list_eq. intros k. rewrite !list_lookup_fmap.
  destruct (pool !! k) as [p|] eqn:Hp.
  - destruct (rank_within_buckets_lookup Raw.position Z.ltb Raw.overall_rank
                Raw.set_position_rank (fun _ _ => eq_refl) pool k p Hp) as (i & _ & Hout).
    unfold calculate_position_ranks. by rewrite Hout.
  - apply lookup_ge_None in Hp.
    rewrite (proj2 (lookup_ge_None _ _)); [done|].
    unfold calculate_position_ranks. rewrite rank_within_buckets_length. lia.
Qed.

(** X20. When [main] writes its document, every file was parsed; the
    players of the document are the consensus of the records of all the
    files put end to end in the order of the directory listing, and the
    count in the metadata is the number of distinct names among them. *)
Theorem main_document set_iter (files : list ranking_file) (o : Output.t) :
  main set_iter files = inr o →
  ∃ pools, Forall2 (fun f rs => parse_file f = inr rs) files pools ∧
    consolidate set_iter (concat pools) = inr (Output.players o) ∧
    Output.total_players o = Z.of_nat (length (Output.players o)) ∧
    length (Output.players o) = length (remove_dups (Raw.name <$> concat pools)).
Proof.
  unfold main. intros Ho.
  destruct (parse_all files []) as [e|all] eqn:Hall; [done|]. simpl in Ho.
  apply parse_all_iff in Hall as (pools & Hp & ->). simpl in Ho.
  destruct (create_consensus_ranking_total set_iter (calculate_position_ranks (concat pools)))
    as (cs & Hlen & Hout).
  rewrite Hout in Ho. simpl in Ho. injection Ho as <-. simpl.
  exists pools. split_and!; [done|exact Hout|done|].
  by rewrite rank_within_buckets_length, length_imap, py_sort_length, Hlen,
    calculate_position_ranks_names.
Qed.

Lemma main_document_witness :
  ∃ o pools, main iter_fwd sample_files = inr o ∧
    Forall2 (fun f rs => parse_file f = inr rs) sample_files pools ∧
    Output.total_players o = Z.of_nat (length (Output.players o)) ∧
    length (Output.players o) = length (remove_dups (Raw.name <$> concat pools)).
Proof.
  destruct (main iter_fwd sample_files) as [e|o] eqn:Ho; [vm_compute in Ho; discriminate|].
  destruct (main_document iter_fwd sample_files o Ho) as (pools & Hp & _ & Ht & Hn).
  by exists o, pools.
Defined.

(** X21. When the parser raises on a file of the listing and has returned
    on every file listed before it, [main] raises that error: the files
    after it are not read, the two stages after the parsers are not run and
    no document is written. *)
Theorem main_raises set_iter (before after : list ranking_file) (f : ranking_file)
    (e : py_error) :
  Forall (fun g => ∃ rs, parse_file g = inr rs) before →
  parse_file f = inl e →
  main set_iter (before ++ f :: after) = inl e.
Proof.
  intros Hb Hf.
  assert (Hall : parse_all (before ++ f :: after) [] = inl e)
    by (apply parse_all_raises; by exists before, f, after).
  unfold main. by rewrite Hall.
Qed.

Lemma main_raises_witness : main iter_fwd noisy_files = inl ValueError.
Proof.
  apply (main_raises iter_fwd
           [ {| file_path := "datasets/yahoo_rankings.txt"; file_lines := crosby_yahoo;
                file_rows := [] |} ]
           [ {| file_path := "datasets/ESPN_top300.txt"; file_lines := crosby_espn;
                file_rows := [] |} ]
           {| file_path := "datasets/FantasyPros_C_2025.csv"; file_lines := [];
              file_rows := csv_noisy_rows |} ValueError).
  - repeat constructor. eexists. vm_compute. reflexivity.
  - vm_compute. reflexivity.
Defined.

(** X22. A file that gives no record adds nothing: with or without it the
    document is the same. *)
Theorem main_skips_empty set_iter (before after : list ranking_file) (f : ranking_file) :
  parse_file f = inr [] →
  main set_iter (before ++ f :: after) = main set_iter (before ++ after).
Proof.
  intros Hf. unfold main.
  assert (Hall : ∀ acc, parse_all (before ++ f :: after) acc = parse_all (before ++ after) acc).
  { induction before as [|b before IH]; intros acc; simpl.
    - rewrite Hf. simpl. by rewrite app_nil_r.
    - destruct (parse_file b); simpl; [done|apply IH]. }
  by rewrite Hall.
Qed.

Lemma main_skips_empty_witness :
  main iter_fwd sample_files = main iter_fwd (take 3 sample_files).
Proof.
  apply (main_skips_empty iter_fwd (take 3 sample_files) []
           {| file_path := "datasets/README.md"; file_lines := ["notes" +:+ nl];
              file_rows := [] |}).
  vm_compute. reflexivity.
Defined.
